(** * RIDE setting controllers: a shallow embedding and its properties

    The development follows [src/robotide/controller/settingcontrollers.py].
    Python strings are lists of characters, attribute slots that may hold
    [None] are options, method calls on the owning entity are recorded in
    the order they happen, and methods of a controller are computations in
    a small state monad over the controller's fields. *)

From Stdlib Require Import String Ascii List Bool Arith ZArith Lia.
Import ListNotations.

Set Implicit Arguments.

(** ** Python strings *)

Definition str := list ascii.

(** [py "..."] is a string literal; Rocq strings have no escape sequences,
    so line breaks are written with [LF] and [CR]. *)
Definition py (s : string) : str := list_ascii_of_string s.

Definition backslash : ascii := "\"%char.
Definition LF : ascii := "010"%char.
Definition CR : ascii := "013"%char.
Definition hash_sign : ascii := "#"%char.
Definition pipe : ascii := "|"%char.

(** Python's [==] on the values stored in the records is structural
    equality; it is decided by the boolean functions below. *)
Fixpoint list_eqb {A} (eqb : A -> A -> bool) (l1 l2 : list A) : bool :=
  match l1, l2 with
  | [], [] => true
  | a :: r1, b :: r2 => eqb a b && list_eqb eqb r1 r2
  | _, _ => false
  end.

Definition option_eqb {A} (eqb : A -> A -> bool) (o1 o2 : option A) : bool :=
  match o1, o2 with
  | None, None => true
  | Some a, Some b => eqb a b
  | _, _ => false
  end.

Definition str_eqb : str -> str -> bool := list_eqb Ascii.eqb.
Definition strs_eqb : list str -> list str -> bool := list_eqb str_eqb.

(** [s.startswith(p)] *)
Fixpoint startswith (s p : str) {struct p} : bool :=
  match p with
  | [] => true
  | a :: p' =>
      match s with
      | b :: s' => Ascii.eqb a b && startswith s' p'
      | [] => false
      end
  end.

(** [s.endswith(p)] *)
Definition endswith (s p : str) : bool := startswith (rev s) (rev p).

(** [s.replace(old, new)] for a non-empty [old]: the occurrences of [old]
    are found from left to right and do not overlap.  [skip] counts the
    characters of an occurrence that was just replaced and are still to be
    passed over. *)
Fixpoint replace_from (old new : str) (skip : nat) (s : str) : str :=
  match s with
  | [] => []
  | c :: rest =>
      match skip with
      | S n => replace_from old new n rest
      | O => if startswith s old
             then new ++ replace_from old new (length old - 1) rest
             else c :: replace_from old new 0 rest
      end
  end.

Definition replace (old new s : str) : str := replace_from old new 0 s.

(** Whitespace of a Python text, among the characters with a code below
    256 that a [str] of this development holds: tab, line feed, vertical
    tab, form feed and carriage return (9 to 13), the file, group, record
    and unit separators (28 to 31), the space (32), the next line control
    (133) and the no-break space (160). *)
Definition isspace (c : ascii) : bool :=
  let n := nat_of_ascii c in
  ((9 <=? n) && (n <=? 13)) || ((28 <=? n) && (n <=? 32))
  || (n =? 133) || (n =? 160).

Fixpoint lstrip (s : str) : str :=
  match s with
  | c :: rest => if isspace c then lstrip rest else s
  | [] => []
  end.

Definition rstrip (s : str) : str := rev (lstrip (rev s)).

(** [s.strip()] *)
Definition strip (s : str) : str := rstrip (lstrip s).

(** [s.split(sep, 1)] for a one-character separator: the text before the
    first separator and the text after it, or the whole text when there is
    no separator. *)
Fixpoint split_once (sep : ascii) (s : str) : list str :=
  match s with
  | [] => [[]]
  | c :: rest =>
      if Ascii.eqb c sep then [[]; rest]
      else match split_once sep rest with
           | p :: more => (c :: p) :: more
           | [] => [[c]]
           end
  end.

(** [s[:j]] for an integer [j] that may be negative: a negative bound counts
    from the end and is clipped at the start of the string; [-0] is [0]. *)
Definition slice_to (s : str) (j : Z) : str :=
  if (j <? 0)%Z then firstn (Z.to_nat (Z.of_nat (length s) + j)) s
  else firstn (Z.to_nat j) s.

(** ** A state monad for methods *)

Definition M (S A : Type) : Type := S -> A * S.

Definition ret {S A} (a : A) : M S A := fun s => (a, s).

Definition bind {S A B} (m : M S A) (k : A -> M S B) : M S B :=
  fun s => let (a, s') := m s in k a s'.

Definition gets {S A} (f : S -> A) : M S A := fun s => (f s, s).

Definition modify {S} (f : S -> S) : M S unit := fun s => (tt, f s).

(** [when c m]: the body of an [if] statement without [else]. *)
Definition when {S} (c : bool) (m : M S unit) : M S unit :=
  if c then m else ret tt.

Declare Scope method_scope.
Delimit Scope method_scope with method.
Notation "x <- m ;; k" := (bind m (fun x => k))
  (at level 61, m at next level, right associativity) : method_scope.
Notation "m ;; k" := (bind m (fun _ => k))
  (at level 61, right associativity) : method_scope.
Open Scope method_scope.

(** The state a method leaves behind and the value it returns. *)
Definition exec {S A} (m : M S A) (s : S) : S := snd (m s).
Definition eval {S A} (m : M S A) (s : S) : A := fst (m s).

(** ** The owning entity *)

(** Modelled from the spec: the owner (a test case, keyword or data file
    controller) is defined outside the sources.  The spec lists the methods
    a setting controller calls on it; the calls are recorded in the order
    they are made. *)
Module Parent.

Inductive call : Type :=
| mark_dirty
| notify_settings_changed
| notify_steps_changed
| notify_imports_modified
| resource_import_modified (name : str).

Record t : Type := { calls : list call }.

Definition called (c : call) (p : t) : t := {| calls := calls p ++ [c] |}.

End Parent.

(** A controller: the wrapped record [_data] and the owner [_parent]. *)
Record controller (D : Type) : Type := {
  _data : D;
  _parent : Parent.t
}.

Definition on_data {D} (f : D -> D) : M (controller D) unit :=
  modify (fun c => {| _data := f (_data c); _parent := _parent c |}).

Definition tell_parent {D} (c : Parent.call) : M (controller D) unit :=
  modify (fun s => {| _data := _data s; _parent := Parent.called c (_parent s) |}).

(** Modelled from the spec: [ControllerWithParent.mark_dirty] lives in
    [basecontroller.py], which is not among the sources; the spec has it
    mark the owning entity dirty, that is, call [mark_dirty] on the owner. *)
Definition mark_dirty {D} : M (controller D) unit :=
  tell_parent Parent.mark_dirty.

(** ** The wrapped records

    The records belong to Robot Framework's parser
    ([robot.parsing.settings]), an external library.  Only the attributes
    the controllers read and write are kept; an attribute that may hold
    [None] is an option. *)

(** [Documentation] and [Template]: one string. *)
Module Scalar.
Record t : Type := { value : option str; comment : option str }.
Definition with_value (v : option str) (d : t) : t :=
  {| value := v; comment := comment d |}.
Definition with_comment (c : option str) (d : t) : t :=
  {| value := value d; comment := c |}.
End Scalar.

(** [Tags], [Arguments] and [Return]: a list of tokens. *)
Module Sequence.
Record t : Type := { value : option (list str); comment : option str }.
Definition with_value (v : option (list str)) (d : t) : t :=
  {| value := v; comment := comment d |}.
End Sequence.

(** [Fixture]: a keyword name and its arguments. *)
Module Fixture.
Record t : Type := {
  name : option str;
  args : option (list str);
  comment : option str
}.
Definition with_name (n : option str) (d : t) : t :=
  {| name := n; args := args d; comment := comment d |}.
Definition with_args (a : option (list str)) (d : t) : t :=
  {| name := name d; args := a; comment := comment d |}.
End Fixture.

(** [Timeout]: a duration and a message. *)
Module Timeout.
Record t : Type := {
  value : option str;
  message : option str;
  comment : option str
}.
Definition with_value (v : option str) (d : t) : t :=
  {| value := v; message := message d; comment := comment d |}.
Definition with_message (m : option str) (d : t) : t :=
  {| value := value d; message := m; comment := comment d |}.
End Timeout.

(** [Metadata]: a name and a value. *)
Module Metadata.
Record t : Type := { name : option str; value : option str }.
End Metadata.

(** ** [robotide.utils] *)

(** The module is not among the sources.  The controllers are defined over
    an arbitrary [split_value]; [split_value_nil] is what [split_value]
    returns for the empty list, which [_ImportController.set_value] passes
    when it is given no arguments. *)
Class Utils : Type := {
  split_value : str -> list str;
  split_value_nil : list str
}.

(** ** [_SettingController] *)
Module _SettingController.

(** [value != self._data.value] *)
Definition _changed (value : str) (data : Scalar.t) : bool :=
  negb (option_eqb str_eqb (Some value) (Scalar.value data)).

(** [self._data.value = value] *)
Definition _set (value : str) : M (controller Scalar.t) unit :=
  on_data (Scalar.with_value (Some value)).

(** [reset] is the record's own method, of the external parser. *)
Definition clear (reset : Scalar.t -> Scalar.t) : M (controller Scalar.t) unit :=
  on_data reset ;;
  on_data (Scalar.with_comment None) ;;
  mark_dirty.

Definition _split_from_separators {U : Utils} (value : str) : list str :=
  split_value value.

End _SettingController.

(** ** Regular expressions of the shape [(\\+)text]

    The three entries of [DocumentationController.newline_regexps] are a
    group of one or more backslashes followed by literal text.  [sub]
    follows [re.sub] with a function as replacement: matches are searched
    from left to right, do not overlap, and the group is greedy, giving
    backslashes back one at a time while the literal text does not
    follow. *)
Module re.

Record pattern : Type := { literal : str }.

(** [match.group(1)] and [match.group()] *)
Record match_object : Type := { group1 : str; group0 : str }.

Fixpoint count_backslashes (s : str) : nat :=
  match s with
  | c :: rest => if Ascii.eqb c backslash then S (count_backslashes rest) else 0
  | [] => 0
  end.

(** The longest group of at most [k] backslashes after which the literal
    text follows. *)
Fixpoint backtrack (lit s : str) (k : nat) : option nat :=
  match k with
  | O => None
  | S k' => if startswith (skipn k s) lit then Some k else backtrack lit s k'
  end.

(** A match that starts at the first character of [s]. *)
Definition match_at (p : pattern) (s : str) : option match_object :=
  match backtrack (literal p) s (count_backslashes s) with
  | Some k => Some {| group1 := firstn k s;
                      group0 := firstn (k + length (literal p)) s |}
  | None => None
  end.

Fixpoint sub_from (p : pattern) (repl : match_object -> str)
    (skip : nat) (s : str) : str :=
  match s with
  | [] => []
  | c :: rest =>
      match skip with
      | S n => sub_from p repl n rest
      | O => match match_at p s with
             | Some m => repl m ++ sub_from p repl (length (group0 m) - 1) rest
             | None => c :: sub_from p repl 0 rest
             end
      end
  end.

Definition sub (p : pattern) (repl : match_object -> str) (s : str) : str :=
  sub_from p repl 0 s.

End re.

(** ** [DocumentationController] *)
Module DocumentationController.

Definition newline_regexps : list re.pattern :=
  [ {| re.literal := py "r\n" |};
    {| re.literal := py "n" |};
    {| re.literal := py "r" |} ].

Definition _newline_replacer (m : re.match_object) : str :=
  let blashes := length (re.group1 m) in
  if blashes mod 2 =? 1
  then repeat backslash (blashes - 1) ++ [LF]
  else re.group0 m.

Definition _unescape_newlines_and_handle_escaped_backslashes (item : str) : str :=
  fold_left (fun item regexp => re.sub regexp _newline_replacer item)
            newline_regexps item.

Definition _escape_newlines_and_leading_hash (item : str) : str :=
  let item := fold_left (fun item newline => replace newline (py "\n") item)
                        [[CR; LF]; [LF]; [CR]] item in
  if startswith (strip item) [hash_sign] then backslash :: item else item.

Definition _changed := _SettingController._changed.
Definition _set := _SettingController._set.

End DocumentationController.

(** ** [FixtureController] *)
Module FixtureController.

Definition _parse {U : Utils} (value : str) : str * list str :=
  match _SettingController._split_from_separators value with
  | first :: others => (first, others)
  | [] => ([], [])
  end.

Definition _changed {U : Utils} (value : str) (fixture : Fixture.t) : bool :=
  let (name, args) := _parse value in
  negb (option_eqb str_eqb (Fixture.name fixture) (Some name))
  || negb (option_eqb strs_eqb (Fixture.args fixture) (Some args)).

Definition _set {U : Utils} (value : str) : M (controller Fixture.t) unit :=
  let (name, args) := _parse value in
  on_data (Fixture.with_name (Some name)) ;;
  on_data (Fixture.with_args (Some args)).

Definition replace_keyword (new_name : str) : M (controller Fixture.t) unit :=
  on_data (Fixture.with_name (Some new_name)) ;;
  mark_dirty.

End FixtureController.

(** ** Tags and their iteration *)

(** The identity of an object. *)
Definition ref : Type := nat.

(** Modelled from the spec: [robotide.controller.tags] is not among the
    sources.  The spec has a tag hold a name, an optional index and a
    reference to its controller, and come as a plain, a forced or a default
    tag. *)
Module tags.

Inductive tag_class : Type := Tag | ForcedTag | DefaultTag.

Record t : Type := {
  cls : tag_class;
  name : str;
  index : option nat;
  controller : option ref
}.

End tags.

(** [enumerate(l)], counting from [i] *)
Fixpoint enumerate_from {A} (i : nat) (l : list A) : list (nat * A) :=
  match l with
  | [] => []
  | a :: rest => (i, a) :: enumerate_from (S i) rest
  end.

Definition enumerate {A} (l : list A) : list (nat * A) := enumerate_from 0 l.

(** Modelled from the spec: the controllers of data files and directories
    are not among the sources.  An entity of the hierarchy is kept as
    [ForceTagsController] reads it: the force tags of its setting table,
    its own force tags controller, and its parent. *)
#[warnings="-register-all"]
Inductive entity : Type :=
| Entity (_setting_table_force_tags : Sequence.t)
         (force_tags : ref)
         (parent : option entity).

Definition _setting_table_force_tags (obj : entity) : Sequence.t :=
  match obj with Entity t _ _ => t end.
Definition force_tags (obj : entity) : ref :=
  match obj with Entity _ c _ => c end.
Definition parent (obj : entity) : option entity :=
  match obj with Entity _ _ p => p end.

Module ForceTagsController.

Record t : Type := {
  self : ref;
  _tags : Sequence.t;
  parent : option entity
}.

Definition _gather_from_data (tags : Sequence.t) (parent : ref) : list tags.t :=
  match Sequence.value tags with
  | None => []
  | Some value =>
      map (fun it => {| tags.cls := tags.ForcedTag;
                        tags.name := snd it;
                        tags.index := Some (fst it);
                        tags.controller := Some parent |})
          (enumerate value)
  end.

(** The recursion of [_recursive_gather_from] once [obj] is known not to
    be [None]. *)
Fixpoint gather_from_entity (obj : entity) (result : list tags.t)
  : list tags.t :=
  match obj with
  | Entity force_tags controller parent =>
      let result := _gather_from_data force_tags controller ++ result in
      match parent with
      | None => result
      | Some above => gather_from_entity above result
      end
  end.

Definition _recursive_gather_from (obj : option entity) (result : list tags.t)
  : list tags.t :=
  match obj with
  | None => result
  | Some obj => gather_from_entity obj result
  end.

Definition __iter__ (c : t) : list tags.t :=
  _recursive_gather_from (parent c) [].

End ForceTagsController.

Module DefaultTagsController.

Record t : Type := { self : ref; _tags : Sequence.t }.

Definition __iter__ (c : t) : list tags.t :=
  match Sequence.value (_tags c) with
  | None => []
  | Some value =>
      map (fun it => {| tags.cls := tags.DefaultTag;
                        tags.name := snd it;
                        tags.index := Some (fst it);
                        tags.controller := Some (self c) |})
          (enumerate value)
  end.

End DefaultTagsController.

(** Modelled from the spec: the owner of a [TagsController], not among the
    sources, exposes the force tags controller and the default tags
    controller that apply to it. *)
Record tags_owner : Type := {
  owner_force_tags : ForceTagsController.t;
  owner_default_tags : DefaultTagsController.t
}.

(** ** [TagsController]; [DefaultTagsController] and [ForceTagsController]
    inherit [_changed] and [_set]. *)
Module TagsController.

Definition _changed {U : Utils} (value : str) (tags : Sequence.t) : bool :=
  negb (option_eqb strs_eqb (Sequence.value tags)
          (Some (_SettingController._split_from_separators value))).

Definition _set {U : Utils} (value : str) : M (controller Sequence.t) unit :=
  on_data (Sequence.with_value
             (Some (_SettingController._split_from_separators value))).

(** A tags controller as [__iter__] sees it: its own identity, its record
    and its owner. *)
Record t : Type := {
  self : ref;
  _tags : Sequence.t;
  _parent : tags_owner
}.

(** [chain] concatenates what its arguments yield. *)
Definition __iter__ (c : t) : list tags.t :=
  let forced := ForceTagsController.__iter__ (owner_force_tags (_parent c)) in
  match Sequence.value (_tags c) with
  | None =>
      forced ++ DefaultTagsController.__iter__ (owner_default_tags (_parent c))
  | Some value =>
      if length value =? 0
      then forced ++ [ {| tags.cls := tags.Tag; tags.name := [];
                          tags.index := None;
                          tags.controller := Some (self c) |} ]
      else forced ++
           map (fun it => {| tags.cls := tags.Tag;
                             tags.name := snd it;
                             tags.index := Some (fst it);
                             tags.controller := Some (self c) |})
               (enumerate value)
  end.

End TagsController.

(** ** [TimeoutController] *)
Module TimeoutController.

Definition _parse (value : str) : str * str :=
  let parts := split_once pipe value in
  let val := match parts with p :: _ => strip p | [] => [] end in
  let msg := match parts with [_; q] => strip q | _ => [] end in
  (val, msg).

Definition _changed (value : str) (timeout : Timeout.t) : bool :=
  let (val, msg) := _parse value in
  negb (option_eqb str_eqb (Timeout.value timeout) (Some val))
  || negb (option_eqb str_eqb (Timeout.message timeout) (Some msg)).

Definition _set (value : str) : M (controller Timeout.t) unit :=
  let (value, message) := _parse value in
  on_data (Timeout.with_value (Some value)) ;;
  on_data (Timeout.with_message (Some message)).

End TimeoutController.

(** ** [TemplateController] *)
Module TemplateController.

Definition _changed := _SettingController._changed.

Definition _set (value : str) : M (controller Scalar.t) unit :=
  _SettingController._set value ;;
  tell_parent Parent.notify_steps_changed.

Definition clear (reset : Scalar.t -> Scalar.t) : M (controller Scalar.t) unit :=
  _SettingController.clear reset ;;
  tell_parent Parent.notify_steps_changed.

Definition keyword_name (self : controller Scalar.t) : option str :=
  Scalar.value (_data self).

Definition replace_keyword (new_name : str) : M (controller Scalar.t) unit :=
  on_data (Scalar.with_value (Some new_name)) ;;
  mark_dirty.

End TemplateController.

(** ** [ArgumentsController] *)
Module ArgumentsController.

Definition _changed {U : Utils} (value : str) (args : Sequence.t) : bool :=
  negb (option_eqb strs_eqb (Sequence.value args)
          (Some (_SettingController._split_from_separators value))).

Definition _set {U : Utils} (value : str) : M (controller Sequence.t) unit :=
  on_data (Sequence.with_value
             (Some (_SettingController._split_from_separators value))) ;;
  tell_parent Parent.notify_settings_changed.

End ArgumentsController.

(** ** [ReturnValueController] *)
Module ReturnValueController.

Definition _changed {U : Utils} (value : str) (return_ : Sequence.t) : bool :=
  negb (option_eqb strs_eqb (Sequence.value return_)
          (Some (_SettingController._split_from_separators value))).

Definition _set {U : Utils} (value : str) : M (controller Sequence.t) unit :=
  on_data (Sequence.with_value
             (Some (_SettingController._split_from_separators value))).

End ReturnValueController.

(** ** [MetadataController]: [set_value] is overridden, takes a name and a
    value, and calls [mark_dirty] on the owner itself. *)
Module MetadataController.

Definition set_value (name value : str) : M (controller Metadata.t) unit :=
  on_data (fun _ => {| Metadata.name := Some name; Metadata.value := Some value |}) ;;
  tell_parent Parent.mark_dirty.

End MetadataController.

(** ** Method resolution

    The classes whose [set_value] is the one of [_SettingController]; the
    record each of them wraps; and the [_changed] and [_set] that a call on
    an instance of the class reaches. *)
Inductive controller_class : Type :=
| Documentation_
| Fixture_
| Tags_
| DefaultTags_
| ForceTags_
| Timeout_
| Template_
| Arguments_
| ReturnValue_.

Definition record (k : controller_class) : Type :=
  match k with
  | Documentation_ | Template_ => Scalar.t
  | Fixture_ => Fixture.t
  | Tags_ | DefaultTags_ | ForceTags_ | Arguments_ | ReturnValue_ => Sequence.t
  | Timeout_ => Timeout.t
  end.

Definition _changed {U : Utils} (k : controller_class)
  : str -> record k -> bool :=
  match k with
  | Documentation_ => DocumentationController._changed
  | Fixture_ => FixtureController._changed
  | Tags_ | DefaultTags_ | ForceTags_ => TagsController._changed
  | Timeout_ => TimeoutController._changed
  | Template_ => TemplateController._changed
  | Arguments_ => ArgumentsController._changed
  | ReturnValue_ => ReturnValueController._changed
  end.

Definition _set {U : Utils} (k : controller_class)
  : str -> M (controller (record k)) unit :=
  match k with
  | Documentation_ => DocumentationController._set
  | Fixture_ => FixtureController._set
  | Tags_ | DefaultTags_ | ForceTags_ => TagsController._set
  | Timeout_ => TimeoutController._set
  | Template_ => TemplateController._set
  | Arguments_ => ArgumentsController._set
  | ReturnValue_ => ReturnValueController._set
  end.

(** [_SettingController.set_value] *)
Definition set_value {U : Utils} (k : controller_class) (value : str)
  : M (controller (record k)) unit :=
  changed <- gets (fun self => _changed k value (_data self)) ;;
  when changed (_set k value ;; mark_dirty).

(** [DocumentationController._set_editable_value] *)
Definition _set_editable_value {U : Utils} (value : str)
  : M (controller Scalar.t) unit :=
  set_value Documentation_
    (DocumentationController._escape_newlines_and_leading_hash value).

(** [DocumentationController._get_editable_value] *)
Definition _get_editable_value (self : controller Scalar.t) : option str :=
  option_map
    DocumentationController._unescape_newlines_and_handle_escaped_backslashes
    (Scalar.value (_data self)).

(** ** [VariableController]

    The variable record is an object of the external parser: its [==] and
    its [hash] are taken as they come.  The class defines [__eq__] twice;
    the second definition replaces the first and is the one modelled. *)
Module VariableController.

Section Record_.

Variable variable : Type.
(** [v == w] and [hash(v)] on variable records *)
Variable variable_eq : variable -> variable -> bool.
Variable variable_hash : variable -> Z.

Record t : Type := { self : ref; _var : variable }.

(** What [other] may be: [None], a variable controller, or an instance of
    some other class. *)
Inductive object : Type :=
| PyNone
| Controller (c : t)
| Instance (class_name : str) (id : ref).

Inductive class_ : Type :=
| NoneType
| VariableController_
| OtherClass (class_name : str).

Definition class_eqb (a b : class_) : bool :=
  match a, b with
  | NoneType, NoneType => true
  | VariableController_, VariableController_ => true
  | OtherClass m, OtherClass n => str_eqb m n
  | _, _ => false
  end.

(** [other.__class__] *)
Definition __class__ (other : object) : class_ :=
  match other with
  | PyNone => NoneType
  | Controller _ => VariableController_
  | Instance n _ => OtherClass n
  end.

(** [self is other]: only a variable controller can be the object [self]. *)
Definition is_ (self_ : t) (other : object) : bool :=
  match other with
  | Controller c => self self_ =? self c
  | _ => false
  end.

(** [other._var]; an object without the attribute raises
    [AttributeError], rendered as [None]. *)
Definition getattr_var (other : object) : option variable :=
  match other with
  | Controller c => Some (_var c)
  | _ => None
  end.

(** [__eq__]; [None] stands for an exception. *)
Definition __eq__ (self_ : t) (other : object) : option bool :=
  if is_ self_ other then Some true
  else if negb (class_eqb (__class__ other) VariableController_) then Some false
  else match getattr_var other with
       | Some v => Some (variable_eq (_var self_) v)
       | None => None
       end.

Definition __ne__ (self_ : t) (other : object) : option bool :=
  option_map negb (__eq__ self_ other).

Definition __hash__ (self_ : t) : Z := (variable_hash (_var self_) + 1)%Z.

End Record_.

End VariableController.

(** Modelled from the spec: the variable record of the external parser, for
    which the spec gives a name and an ordered sequence of value tokens,
    compared by name and value. *)
Module Variable_.
Record t : Type := { name : str; value : list str }.
Definition eqb (v w : t) : bool :=
  str_eqb (name v) (name w) && strs_eqb (value v) (value w).
Definition hash (v : t) : Z :=
  Z.of_nat (length (name v) + 31 * length (value v)).
End Variable_.

(** ** Import controllers *)
Module Import_.
Record t : Type := {
  type : str;
  name : str;
  args : list str;
  alias : str
}.
End Import_.

(** [s.lower()] on ASCII letters *)
Definition lower_char (c : ascii) : ascii :=
  let n := nat_of_ascii c in
  if (65 <=? n) && (n <=? 90) then ascii_of_nat (n + 32) else c.
Definition lower (s : str) : str := map lower_char s.

Module _ImportController.

(** Messages sent to the notification bus. *)
Inductive message : Type :=
| RideImportSettingChanged (name type : str)
| RideImportSettingRemoved (name type : str).

(** An import controller with the parts of its surroundings that its
    methods reach: the calls made on the owner, the messages published,
    the owner's factory and the imports the factory was asked about.  The
    factory and the resource file controllers it hands out are external. *)
Record t (factory resource : Type) : Type := {
  _import : Import_.t;
  is_resource : bool;
  _resolved_import : bool;
  (** the instance attribute does not exist before the first resolution *)
  _imported_resource_controller : option (option resource);
  _parent : Parent.t;
  published : list message;
  resource_file_controller_factory : factory;
  lookups : list Import_.t
}.

Section Members.

Context {factory resource : Type}.

Definition name (self : t factory resource) : str :=
  Import_.name (_import self).

Definition with_import (f : Import_.t -> Import_.t)
  : M (t factory resource) unit :=
  modify (fun s =>
    {| _import := f (_import s); is_resource := is_resource s;
       _resolved_import := _resolved_import s;
       _imported_resource_controller := _imported_resource_controller s;
       _parent := _parent s; published := published s;
       resource_file_controller_factory := resource_file_controller_factory s;
       lookups := lookups s |}).

Definition tell_parent (c : Parent.call) : M (t factory resource) unit :=
  modify (fun s =>
    {| _import := _import s; is_resource := is_resource s;
       _resolved_import := _resolved_import s;
       _imported_resource_controller := _imported_resource_controller s;
       _parent := Parent.called c (_parent s); published := published s;
       resource_file_controller_factory := resource_file_controller_factory s;
       lookups := lookups s |}).

Definition publish (m : message) : M (t factory resource) unit :=
  modify (fun s =>
    {| _import := _import s; is_resource := is_resource s;
       _resolved_import := _resolved_import s;
       _imported_resource_controller := _imported_resource_controller s;
       _parent := _parent s; published := published s ++ [m];
       resource_file_controller_factory := resource_file_controller_factory s;
       lookups := lookups s |}).

Definition publish_edited : M (t factory resource) unit :=
  self <- gets (fun s => s) ;;
  publish (RideImportSettingChanged (name self)
             (lower (Import_.type (_import self)))).

Definition import_loaded_or_modified : M (t factory resource) unit :=
  tell_parent Parent.notify_imports_modified ;;
  self <- gets (fun s => s) ;;
  if negb (is_resource self) then ret tt
  else tell_parent (Parent.resource_import_modified (name self)).

(** [set_value(name, args=None, alias='')]; [args or []] is the empty list
    when [args] is [None] or empty. *)
Definition set_value {U : Utils} (name : str) (args : option str) (alias : str)
  : M (t factory resource) unit :=
  with_import (fun _import =>
    {| Import_.type := Import_.type _import;
       Import_.name := name;
       Import_.args := match args with
                       | Some (c :: a) => split_value (c :: a)
                       | _ => split_value_nil
                       end;
       Import_.alias := alias |}) ;;
  tell_parent Parent.mark_dirty ;;
  publish_edited ;;
  import_loaded_or_modified.

End Members.

End _ImportController.

(** ** [ResourceImportController] *)
Module ResourceImportController.

Import _ImportController.

Section Resolution.

Context {factory resource : Type}.
(** [resource_file_controller_factory.find_with_import], which may change
    the factory. *)
Variable find_with_import : factory -> Import_.t -> option resource * factory.

Definition get_imported_controller
  : M (t factory resource) (option (option resource)) :=
  resolved <- gets (fun self => _resolved_import self) ;;
  when (negb resolved)
    (modify (fun s =>
       let (found, factory') :=
         find_with_import (resource_file_controller_factory s) (_import s) in
       {| _import := _import s; is_resource := is_resource s;
          _resolved_import := true;
          _imported_resource_controller := Some found;
          _parent := _parent s; published := published s;
          resource_file_controller_factory := factory';
          lookups := lookups s ++ [_import s] |})) ;;
  gets (fun self => _imported_resource_controller self).

(** The factory's answer for the import of [s], and the controller after
    that answer has been stored. *)
Definition answer (s : t factory resource) : option resource :=
  fst (find_with_import (resource_file_controller_factory s) (_import s)).

Definition resolved (s : t factory resource) : t factory resource :=
  {| _import := _import s; is_resource := is_resource s;
     _resolved_import := true;
     _imported_resource_controller := Some (answer s);
     _parent := _parent s; published := published s;
     resource_file_controller_factory :=
       snd (find_with_import (resource_file_controller_factory s) (_import s));
     lookups := lookups s ++ [_import s] |}.

Definition unresolve : M (t factory resource) unit :=
  modify (fun s =>
    {| _import := _import s; is_resource := is_resource s;
       _resolved_import := false;
       _imported_resource_controller := _imported_resource_controller s;
       _parent := _parent s; published := published s;
       resource_file_controller_factory := resource_file_controller_factory s;
       lookups := lookups s |}).

Definition contains_filename (self : t factory resource) (filename : str)
  : bool :=
  endswith (name self) filename.

Definition change_name {U : Utils} (old_name new_name : str)
  : M (t factory resource) unit :=
  self <- gets (fun s => s) ;;
  when (contains_filename self old_name)
    (set_value (slice_to (name self) (- Z.of_nat (length old_name)) ++ new_name)
               None []).

End Resolution.

(** The controller as its constructor leaves it: [is_resource] is [True],
    [_resolved_import] is the class attribute [False], and nothing has been
    resolved, called or published yet. *)
Definition new {factory resource : Type}
    (parent_factory : factory) (import_ : Import_.t)
  : _ImportController.t factory resource :=
  {| _ImportController._import := import_;
     _ImportController.is_resource := true;
     _ImportController._resolved_import := false;
     _ImportController._imported_resource_controller := None;
     _ImportController._parent := {| Parent.calls := [] |};
     _ImportController.published := [];
     _ImportController.resource_file_controller_factory := parent_factory;
     _ImportController.lookups := [] |}.

End ResourceImportController.

(** ** Reference definitions, written from the specification *)

(** Modelled from the spec: [robotide.utils.split_value] is not among the
    sources.  The spec has it split on unescaped pipes, read a backslash
    followed by a pipe as a literal pipe, trim the whitespace around every
    token, and give the empty list for an empty string. *)
Module utils_model.

Fixpoint split_tokens (token s : str) : list str :=
  match s with
  | [] => [token]
  | c :: rest =>
      if Ascii.eqb c pipe then token :: split_tokens [] rest
      else if Ascii.eqb c backslash then
        match rest with
        | p :: rest' =>
            if Ascii.eqb p pipe then split_tokens (token ++ [pipe]) rest'
            else split_tokens (token ++ [c]) rest
        | [] => [token ++ [c]]
        end
      else split_tokens (token ++ [c]) rest
  end.

Definition split_value (value : str) : list str :=
  match value with
  | [] => []
  | _ => map strip (split_tokens [] value)
  end.

Definition utils : Utils := Build_Utils split_value [].

End utils_model.

(** The newline escape a text starts with, if any, and its length: the
    letter [r] followed by backslash and [n], or [n], or [r]. *)
Definition newline_escape (s : str) : option nat :=
  if startswith s (py "r\n") then Some 3
  else if startswith s (py "n") then Some 1
  else if startswith s (py "r") then Some 1
  else None.

(** Unescaping in one pass from left to right.  A run of [k] backslashes
    that a newline escape follows is replaced, together with the escape, by
    [k - 1] backslashes and a line feed when [k] is odd; every other run is
    copied and the text after the run is read on. *)
Fixpoint unescape_from (skip : nat) (s : str) : str :=
  match s with
  | [] => []
  | c :: rest =>
      match skip with
      | S n => unescape_from n rest
      | O =>
          if Ascii.eqb c backslash then
            let k := re.count_backslashes s in
            match newline_escape (skipn k s) with
            | Some len =>
                if Nat.odd k
                then repeat backslash (k - 1) ++ LF :: unescape_from (k + len - 1) rest
                else repeat backslash k ++ unescape_from (k - 1) rest
            | None => repeat backslash k ++ unescape_from (k - 1) rest
            end
          else c :: unescape_from 0 rest
      end
  end.

Definition unescape_newlines (item : str) : str := unescape_from 0 item.

(** Escaping in one pass: a carriage return with the line feed after it, a
    line feed, and a carriage return each become backslash-[n]. *)
Fixpoint escape_newlines (s : str) : str :=
  match s with
  | [] => []
  | c :: rest =>
      if Ascii.eqb c CR then
        match rest with
        | d :: rest' =>
            if Ascii.eqb d LF then backslash :: "n"%char :: escape_newlines rest'
            else backslash :: "n"%char :: escape_newlines rest
        | [] => [backslash; "n"%char]
        end
      else if Ascii.eqb c LF then backslash :: "n"%char :: escape_newlines rest
      else c :: escape_newlines rest
  end.

(** The codes of the whitespace characters, one by one. *)
Definition whitespace_codes : list nat :=
  [9; 10; 11; 12; 13; 28; 29; 30; 31; 32; 133; 160].

Definition is_whitespace (c : ascii) : bool :=
  existsb (Nat.eqb (nat_of_ascii c)) whitespace_codes.

(** The first character of [s] that is not whitespace is a hash. *)
Fixpoint hash_after_whitespace (s : str) : bool :=
  match s with
  | [] => false
  | c :: rest =>
      Ascii.eqb c hash_sign || (is_whitespace c && hash_after_whitespace rest)
  end.

(** The entities from [obj] upwards, [obj] first and the topmost ancestor
    last. *)
Fixpoint ancestors_of (obj : entity) : list entity :=
  obj :: match obj with
         | Entity _ _ (Some above) => ancestors_of above
         | Entity _ _ None => []
         end.

Definition ancestors (obj : option entity) : list entity :=
  match obj with
  | None => []
  | Some obj => ancestors_of obj
  end.

(** The force tags one level declares, as forced tags of that level's own
    force tags controller. *)
Definition level_force_tags (obj : entity) : list tags.t :=
  match Sequence.value (_setting_table_force_tags obj) with
  | None => []
  | Some value =>
      map (fun it => {| tags.cls := tags.ForcedTag;
                        tags.name := snd it;
                        tags.index := Some (fst it);
                        tags.controller := Some (force_tags obj) |})
          (combine (seq 0 (length value)) value)
  end.

(** What a class makes of the input of [set_value] and what it compares it
    with: the one string of a documentation or a template, the name and
    arguments of a fixture, the token list of tags, arguments and return
    values, the duration and message of a timeout. *)
Definition form (k : controller_class) : Type :=
  match k with
  | Documentation_ | Template_ => option str
  | Fixture_ => (option str * option (list str))%type
  | Tags_ | DefaultTags_ | ForceTags_ | Arguments_ | ReturnValue_ =>
      option (list str)
  | Timeout_ => (option str * option str)%type
  end.

Definition parsed {U : Utils} (k : controller_class) : str -> form k :=
  match k with
  | Documentation_ | Template_ => fun v => Some v
  | Fixture_ => fun v =>
      match split_value v with
      | first :: others => (Some first, Some others)
      | [] => (Some [], Some [])
      end
  | Tags_ | DefaultTags_ | ForceTags_ | Arguments_ | ReturnValue_ =>
      fun v => Some (split_value v)
  | Timeout_ => fun v =>
      match split_once pipe v with
      | [p; q] => (Some (strip p), Some (strip q))
      | p :: _ => (Some (strip p), Some [])
      | [] => (Some [], Some [])
      end
  end.

Definition stored (k : controller_class) : record k -> form k :=
  match k with
  | Documentation_ | Template_ => Scalar.value
  | Fixture_ => fun d => (Fixture.name d, Fixture.args d)
  | Tags_ | DefaultTags_ | ForceTags_ | Arguments_ | ReturnValue_ =>
      Sequence.value
  | Timeout_ => fun d => (Timeout.value d, Timeout.message d)
  end.

(** The calls a method made on the owner: what the record of calls holds
    after [s'] beyond what it held in [s]. *)
Definition calls_since {D} (s s' : controller D) : list Parent.call :=
  skipn (length (Parent.calls (_parent s))) (Parent.calls (_parent s')).

(** How often a list of calls marks the owner dirty. *)
Definition dirty_marks (l : list Parent.call) : nat :=
  length (filter (fun c => match c with
                           | Parent.mark_dirty => true
                           | _ => false
                           end) l).

(** ** Definitions used in the proofs *)

(** [s] does not begin with a backslash. *)
Definition no_leading_backslash (s : str) : Prop :=
  match s with
  | c :: _ => c <> backslash
  | [] => True
  end.

(** The three passes of the source. *)
Definition pass_rn : str -> str :=
  re.sub {| re.literal := py "r\n" |} DocumentationController._newline_replacer.
Definition pass_n : str -> str :=
  re.sub {| re.literal := py "n" |} DocumentationController._newline_replacer.
Definition pass_r : str -> str :=
  re.sub {| re.literal := py "r" |} DocumentationController._newline_replacer.

(** Replacing one character is a map over the characters. *)
Definition replace_char (x : ascii) (new : str) (c : ascii) : str :=
  if Ascii.eqb x c then new else [c].

(** What the second and third replacement of the source make of the
    result of the first. *)
Definition escape_lone (s : str) : str :=
  replace [CR] (py "\n") (replace [LF] (py "\n") s).

(** The calls [_set] makes on the owner: the template controller reports
    changed steps, the arguments controller changed settings, the others
    report nothing. *)
Definition _set_calls (k : controller_class) : list Parent.call :=
  match k with
  | Template_ => [Parent.notify_steps_changed]
  | Arguments_ => [Parent.notify_settings_changed]
  | _ => []
  end.

(** * Further methods *)

(** ** More of Python's strings and lists *)

(** [sep.join(parts)] *)
Fixpoint join (sep : str) (parts : list str) : str :=
  match parts with
  | [] => []
  | [p] => p
  | p :: rest => p ++ sep ++ join sep rest
  end.

(** A slice bound, as Python reads it for a sequence of length [len]: a
    negative bound counts from the end, and every bound is clipped to the
    sequence. *)
Definition clip (len : nat) (i : Z) : nat :=
  if (i <? 0)%Z then Z.to_nat (Z.max 0 (Z.of_nat len + i))
  else Nat.min (Z.to_nat i) len.

(** [s[i:j]] *)
Definition slice (s : str) (i j : Z) : str :=
  firstn (clip (length s) j - clip (length s) i) (skipn (clip (length s) i) s).

(** [s.rsplit(sep, 1)] for a one-character separator: the text before the
    last separator and the text after it, or the whole text. *)
Definition rsplit_once (sep : ascii) (s : str) : list str :=
  match split_once sep (rev s) with
  | [after; before] => [rev before; rev after]
  | _ => [s]
  end.

(** [l.pop()] as far as the list is concerned; popping from an empty list
    raises [IndexError], rendered as [None]. *)
Definition pop {A} (l : list A) : option (list A) :=
  match l with
  | [] => None
  | _ => Some (removelast l)
  end.

(** [x in l] *)
Definition in_list (x : str) (l : list str) : bool := existsb (str_eqb x) l.

(** ** [_SettingController]: label and displayed values

    [setting_name], [as_list()] and the truth value of [comment] are read
    from the record, whose class belongs to the external parser. *)
Module _SettingController_more.

Definition _label (setting_name : str) : str :=
  let label := setting_name in
  if startswith label (py "[") then slice label 1 (-1) else label.

Definition _value (as_list : list str) : list str :=
  map (replace [pipe] [backslash; pipe]) (tl as_list).

(** [None] stands for the [IndexError] of [pop]. *)
Definition value (as_list : list str) (comment : bool) : option str :=
  let value := _value as_list in
  if comment
  then option_map (join (py " | ")) (pop value)
  else Some (join (py " | ") value).

Definition display_value (as_list : list str) : str :=
  join (py " | ") (_value as_list).

End _SettingController_more.

(** ** [FixtureController.keyword_name] *)
Module FixtureController_more.

Definition keyword_name (self : controller Fixture.t) : option str :=
  Fixture.name (_data self).

End FixtureController_more.

(** ** [TagsController.add]

    Modelled from the spec: [Tag.set_index] belongs to
    [robotide.controller.tags], which is not among the sources; the spec has
    [add] assign the tag the next positional index.  The tag object is
    changed in place, so the changed tag is returned beside the
    controller. *)
Module TagsController_more.



(** The generator expression goes through the tags that [__iter__]
    yields. *)
Definition display_value (c : TagsController.t) : str :=
  join (py " | ")
    (map (fun tag => replace [pipe] [backslash; pipe] (tags.name tag))
       (TagsController.__iter__ c)).

End TagsController_more.

(** ** [VariableController.set_value] *)
Module VariableController_more.

(** The value handed to [set_value]: a string or a list of strings. *)
Inductive argument : Type :=
| Text (s : str)
| Items (l : list str).

Definition set_value (name : str) (value : argument)
  : M (controller Variable_.t) unit :=
  let value := match value with
               | Text s => [s]
               | Items l => l
               end in
  on_data (fun _ => {| Variable_.name := name; Variable_.value := value |}) ;;
  tell_parent Parent.mark_dirty.

End VariableController_more.

(** ** [ImportController] and [LibraryImportController] *)
Module LibraryImportController.

Definition new {factory resource : Type}
    (parent_factory : factory) (import_ : Import_.t)
  : _ImportController.t factory resource :=
  {| _ImportController._import := import_;
     _ImportController.is_resource := false;
     _ImportController._resolved_import := false;
     _ImportController._imported_resource_controller := None;
     _ImportController._parent := {| Parent.calls := [] |};
     _ImportController.published := [];
     _ImportController.resource_file_controller_factory := parent_factory;
     _ImportController.lookups := [] |}.

End LibraryImportController.

Definition ImportController {factory resource : Type}
    (parent_factory : factory) (import_ : Import_.t)
  : _ImportController.t factory resource :=
  if str_eqb (Import_.type import_) (py "Resource")
  then ResourceImportController.new parent_factory import_
  else LibraryImportController.new parent_factory import_.

(** ** [ResourceImportController]: formats *)
Module ResourceImportController_more.

Section Format.

Context {factory resource : Type}.
Context {U : Utils}.
(** [utils.replace_extension], not among the sources *)
Variable replace_extension : str -> str -> str.

Definition _has_format (self : _ImportController.t factory resource) : bool :=
  let parts := rsplit_once "."%char (_ImportController.name self) in
  if length parts =? 1 then false
  else in_list (lower (last parts [])) [py "html"; py "txt"; py "tsv"].

Definition change_format (format : str)
  : M (_ImportController.t factory resource) unit :=
  self <- gets (fun s => s) ;;
  when (_has_format self)
    (_ImportController.set_value
       (replace_extension (_ImportController.name self) format) None []).

End Format.

End ResourceImportController_more.

(** ** [robotide.widgets.label]

    The widget classes derive from [wx.StaticText]; what is kept of a
    widget is the label text handed to [wx]. *)
Module Label.

Record t : Type := { wx_label : str }.

Definition escaped (label : str) : str :=
  replace ["&"%char] ["&"%char; "&"%char] label.

(** [Label.__init__] *)
Definition new (label : str) : t := {| wx_label := escaped label |}.

(** [Label.SetLabel] *)
Definition SetLabel (label : str) (self : t) : t :=
  {| wx_label := escaped label |}.

End Label.

(** ** Reference definitions for the further properties *)

(** A text with every kind of line break turned into a line feed. *)
Fixpoint normalize_newlines (s : str) : str :=
  match s with
  | [] => []
  | c :: rest =>
      if Ascii.eqb c CR then
        match rest with
        | d :: rest' =>
            if Ascii.eqb d LF then LF :: normalize_newlines rest'
            else LF :: normalize_newlines rest
        | [] => [LF]
        end
      else c :: normalize_newlines rest
  end.

(** The entries of a level's force tags. *)
Definition level_names (obj : entity) : list str :=
  match Sequence.value (_setting_table_force_tags obj) with
  | None => []
  | Some value => value
  end.

(** ** Definitions used in the further proofs *)

(** The force tags of all levels above the owner of a tags controller, the
    topmost level's first. *)
Definition forced_names (c : TagsController.t) : list str :=
  concat (map level_names
            (rev (ancestors
                    (ForceTagsController.parent
                       (owner_force_tags (TagsController._parent c)))))).

(** The entries of the default tags that apply to a tags controller. *)
Definition default_names (c : TagsController.t) : list str :=
  match Sequence.value
          (DefaultTagsController._tags
             (owner_default_tags (TagsController._parent c))) with
  | None => []
  | Some value => value
  end.

(** [r] is [s] without the whitespace at its two ends: [s] is [r] between
    two runs of whitespace, and [r] neither begins nor ends with
    whitespace. *)
Definition trimmed (s r : str) : Prop :=
  exists before after,
    s = before ++ r ++ after
    /\ forallb is_whitespace before = true
    /\ forallb is_whitespace after = true
    /\ (forall c rest, r = c :: rest -> is_whitespace c = false)
    /\ (forall front c, r = front ++ [c] -> is_whitespace c = false).

(** The escaping of one token in [_value]. *)
Definition escape_pipes (v : str) : str := replace [pipe] [backslash; pipe] v.

(** What comes after a token in a joined value: nothing, or the separator
    and more. *)
Definition after_token (rest : str) : Prop :=
  rest = [] \/ exists more, rest = " "%char :: pipe :: " "%char :: more.

(** * Properties *)

(** ** Equality tests *)

Lemma list_eqb_eq {A} {eqb : A -> A -> bool} :
  (forall a b, eqb a b = true <-> a = b) ->
  forall l1 l2, list_eqb eqb l1 l2 = true <-> l1 = l2.
Proof.
  intros Heq l1; induction l1 as [|a l1 IH]; intros [|b l2]; simpl;
    try (split; [discriminate | discriminate]); try tauto.
  rewrite andb_true_iff, Heq, IH. split.
  - intros [-> ->]; reflexivity.
  - intros E; injection E; auto.
Qed.

Lemma str_eqb_eq (a b : str) : str_eqb a b = true <-> a = b.
Proof. apply list_eqb_eq, Ascii.eqb_eq. Qed.

Lemma strs_eqb_eq (a b : list str) : strs_eqb a b = true <-> a = b.
Proof. apply list_eqb_eq, str_eqb_eq. Qed.

Lemma option_eqb_eq {A} {eqb : A -> A -> bool} :
  (forall a b, eqb a b = true <-> a = b) ->
  forall o1 o2, option_eqb eqb o1 o2 = true <-> o1 = o2.
Proof.
  intros Heq [a|] [b|]; simpl; try (split; [discriminate | discriminate]);
    try tauto.
  rewrite Heq. split; [intros ->; reflexivity | intros E; injection E; auto].
Qed.

Lemma ne_false_iff {A} {eqb : A -> A -> bool} :
  (forall a b, eqb a b = true <-> a = b) ->
  forall o1 o2, negb (option_eqb eqb o1 o2) = false <-> o1 = o2.
Proof.
  intros Heq o1 o2. rewrite negb_false_iff. apply option_eqb_eq, Heq.
Qed.

(** ** Strings *)

Lemma startswith_iff (s p : str) :
  startswith s p = true <-> exists rest, s = p ++ rest.
Proof.
  revert s; induction p as [|a p IH]; intros s; simpl.
  - split; [intros _; exists s; reflexivity | reflexivity].
  - destruct s as [|b s].
    + split; [discriminate | intros [rest E]; discriminate].
    + rewrite andb_true_iff, Ascii.eqb_eq, IH. split.
      * intros [-> [rest ->]]. exists rest. reflexivity.
      * intros [rest E]. injection E as -> ->. split; [reflexivity | eauto].
Qed.

Lemma startswith_app (p rest : str) : startswith (p ++ rest) p = true.
Proof. apply startswith_iff. exists rest. reflexivity. Qed.

Lemma endswith_iff (s p : str) :
  endswith s p = true <-> exists before, s = before ++ p.
Proof.
  unfold endswith. rewrite startswith_iff. split.
  - intros [rest E]. exists (rev rest).
    rewrite <- (rev_involutive s), E, rev_app_distr, rev_involutive.
    reflexivity.
  - intros [before ->]. exists (rev before). apply rev_app_distr.
Qed.

Lemma slice_to_minus_length (before old : str) :
  old <> [] ->
  slice_to (before ++ old) (- Z.of_nat (length old)) = before.
Proof.
  intros Hne. unfold slice_to.
  assert (0 < length old) by (destruct old; [contradiction | simpl; lia]).
  destruct (Z.ltb_spec (- Z.of_nat (length old)) 0); [|lia].
  rewrite length_app.
  replace (Z.to_nat (Z.of_nat (length before + length old)
                     + - Z.of_nat (length old)))
    with (length before) by lia.
  rewrite firstn_app, firstn_all, Nat.sub_diag. simpl. apply app_nil_r.
Qed.

(** ** [set_value] *)

Section SetValue.

Context {U : Utils}.

(** The change test of every class compares the parsed input with the
    stored fields. *)
Lemma _changed_false_iff (k : controller_class) (v : str) (d : record k) :
  _changed k v d = false <-> parsed k v = stored k d.
Proof.
  destruct k; simpl in *;
    unfold DocumentationController._changed, TemplateController._changed,
      _SettingController._changed, FixtureController._changed,
      FixtureController._parse, TagsController._changed,
      ArgumentsController._changed, ReturnValueController._changed,
      TimeoutController._changed, TimeoutController._parse,
      _SettingController._split_from_separators.
  all: try (rewrite (ne_false_iff str_eqb_eq); split; congruence).
  all: try (rewrite (ne_false_iff strs_eqb_eq); split; congruence).
  - destruct (split_value v) as [|first others];
      rewrite orb_false_iff, (ne_false_iff str_eqb_eq),
        (ne_false_iff strs_eqb_eq);
      destruct d as [n a c]; simpl; split;
      [intros [-> ->]; reflexivity | intros E; injection E; auto
      |intros [-> ->]; reflexivity | intros E; injection E; auto].
  - destruct (split_once pipe v) as [|p [|q [|r more]]];
      rewrite orb_false_iff, !(ne_false_iff str_eqb_eq);
      destruct d as [n a c]; simpl; split;
      try (intros [-> ->]; reflexivity); intros E; injection E; auto.
Qed.

Lemma _changed_true_iff (k : controller_class) (v : str) (d : record k) :
  _changed k v d = true <-> parsed k v <> stored k d.
Proof.
  rewrite <- _changed_false_iff. destruct (_changed k v d); split;
    congruence.
Qed.

(** [_set] stores the parsed input. *)
Lemma _set_stores (k : controller_class) (v : str) (s : controller (record k)) :
  stored k (_data (exec (_set k v) s)) = parsed k v.
Proof.
  destruct k; simpl in *;
    unfold FixtureController._set, FixtureController._parse,
      TimeoutController._set, TimeoutController._parse,
      _SettingController._split_from_separators;
    try reflexivity.
  all: try (destruct (split_value v); reflexivity).
  all: try (destruct (split_once pipe v) as [|p [|q [|r more]]]; reflexivity).
Qed.

Lemma _set_parent (k : controller_class) (v : str) (s : controller (record k)) :
  Parent.calls (_parent (exec (_set k v) s))
  = Parent.calls (_parent s) ++ _set_calls k.
Proof.
  destruct k; simpl in *;
    unfold FixtureController._set, FixtureController._parse,
      TimeoutController._set, TimeoutController._parse;
    try (cbn; rewrite ?app_nil_r; reflexivity).
  all: try (destruct (_SettingController._split_from_separators v); cbn;
            rewrite app_nil_r; reflexivity).
  all: try (destruct (split_once pipe v) as [|p [|q [|r more]]]; cbn;
            rewrite app_nil_r; reflexivity).
Qed.

Lemma set_value_unfold (k : controller_class) (v : str)
    (s : controller (record k)) :
  exec (set_value k v) s
  = if _changed k v (_data s) then exec mark_dirty (exec (_set k v) s) else s.
Proof.
  unfold set_value, exec, bind, gets, when, ret. simpl.
  destruct (_changed k v (_data s)); simpl; [|reflexivity].
  destruct (_set k v s) as [[] s1]. reflexivity.
Qed.

Lemma set_value_changed (k : controller_class) (v : str)
    (s : controller (record k)) :
  parsed k v <> stored k (_data s) ->
  exec (set_value k v) s = exec (_set k v ;; mark_dirty) s
  /\ stored k (_data (exec (set_value k v) s)) = parsed k v
  /\ calls_since s (exec (set_value k v) s) = _set_calls k ++ [Parent.mark_dirty].
Proof.
  intros Hne. apply _changed_true_iff in Hne.
  assert (E : exec (set_value k v) s = exec mark_dirty (exec (_set k v) s)).
  { rewrite set_value_unfold, Hne. reflexivity. }
  split; [|split].
  - rewrite E. unfold exec, bind. destruct (_set k v s) as [[] s1]. reflexivity.
  - rewrite E. apply _set_stores.
  - rewrite E. unfold calls_since. cbn. rewrite _set_parent, <- app_assoc.
    rewrite skipn_app, skipn_all, Nat.sub_diag. reflexivity.
Qed.

Lemma set_value_noop_iff (k : controller_class) (v : str)
    (s : controller (record k)) :
  exec (set_value k v) s = s <-> parsed k v = stored k (_data s).
Proof.
  rewrite <- _changed_false_iff. split.
  - intros E. destruct (_changed k v (_data s)) eqn:Hc; [|reflexivity].
    exfalso. apply _changed_true_iff, set_value_changed in Hc.
    destruct Hc as (_ & _ & Hcalls). rewrite E in Hcalls.
    unfold calls_since in Hcalls. rewrite skipn_all in Hcalls.
    destruct (_set_calls k); discriminate.
  - intros Hc. rewrite set_value_unfold, Hc. reflexivity.
Qed.

End SetValue.

Lemma calls_since_app {D} (s s' : controller D) (l : list Parent.call) :
  Parent.calls (_parent s') = Parent.calls (_parent s) ++ l ->
  calls_since s s' = l.
Proof.
  intros E. unfold calls_since. rewrite E, skipn_app, skipn_all, Nat.sub_diag.
  reflexivity.
Qed.

(** C1 (amended).  For every class that inherits [set_value], the call is
    a no-op exactly when what the class makes of the input equals what the
    record stores; otherwise it writes through [_set], which stores the
    parsed input, and then marks the owner dirty.  Fixture, tags, arguments
    and return value controllers compare split token sequences and a timeout
    its stripped duration and message; documentation and template
    controllers compare the input string itself with the stored string. *)
Theorem set_value_noop_exactly_when_unchanged {U : Utils}
    (k : controller_class) (v : str) (s : controller (record k)) :
  (exec (set_value k v) s = s <-> parsed k v = stored k (_data s))
  /\ (parsed k v <> stored k (_data s) ->
      exec (set_value k v) s = exec (_set k v ;; mark_dirty) s
      /\ stored k (_data (exec (set_value k v) s)) = parsed k v
      /\ calls_since s (exec (set_value k v) s)
         = _set_calls k ++ [Parent.mark_dirty]).
Proof.
  split; [apply set_value_noop_iff | apply set_value_changed].
Qed.

Lemma set_value_noop_exactly_when_unchanged_witness :
  parsed (U := utils_model.utils) Arguments_ (py "${a} | ${b}")
  <> stored Arguments_
       (_data {| _data := {| Sequence.value := Some [py "${a}"];
                             Sequence.comment := None |};
                 _parent := {| Parent.calls := [] |} |})
  /\ calls_since
       {| _data := {| Sequence.value := Some [py "${a}"];
                      Sequence.comment := None |};
          _parent := {| Parent.calls := [] |} |}
       (exec (set_value (U := utils_model.utils) Arguments_ (py "${a} | ${b}"))
          {| _data := {| Sequence.value := Some [py "${a}"];
                         Sequence.comment := None |};
             _parent := {| Parent.calls := [] |} |})
     = [Parent.notify_settings_changed; Parent.mark_dirty].
Proof.
  split; [discriminate |].
  apply (set_value_noop_exactly_when_unchanged (U := utils_model.utils)
           Arguments_ (py "${a} | ${b}")).
  discriminate.
Defined.

(** C1, as stated, fails for the documentation and the template
    controller.  The inputs [a|b] and [a | b] split into the same token
    sequence, yet with [a | b] stored, [set_value] of [a|b] on a
    documentation controller writes the new string and marks the owner
    dirty; so does, on a template controller that stores [Log Many],
    [set_value] of the same name with a space in front. *)
Lemma documentation_set_value_compares_raw_strings :
  (utils_model.split_value (py "a|b") = utils_model.split_value (py "a | b")
   /\ exec (set_value (U := utils_model.utils) Documentation_ (py "a|b"))
        {| _data := {| Scalar.value := Some (py "a | b");
                       Scalar.comment := None |};
           _parent := {| Parent.calls := [] |} |}
      = {| _data := {| Scalar.value := Some (py "a|b");
                       Scalar.comment := None |};
           _parent := {| Parent.calls := [Parent.mark_dirty] |} |})
  /\ (utils_model.split_value (py " Log Many")
      = utils_model.split_value (py "Log Many")
      /\ exec (set_value (U := utils_model.utils) Template_ (py " Log Many"))
           {| _data := {| Scalar.value := Some (py "Log Many");
                          Scalar.comment := None |};
              _parent := {| Parent.calls := [] |} |}
         = {| _data := {| Scalar.value := Some (py " Log Many");
                          Scalar.comment := None |};
              _parent :=
                {| Parent.calls :=
                     [Parent.notify_steps_changed; Parent.mark_dirty] |} |}).
Proof. repeat split. Qed.

(** C7 (amended).  For every class that inherits [set_value]: after
    [set_value] of [v], a second [set_value] of an input with the same
    parsed form is a no-op; the two calls together make no call on the
    owner when [v] already equalled what was stored, and otherwise write
    once and mark the owner dirty once. *)
Theorem set_value_twice_writes_once {U : Utils}
    (k : controller_class) (v v' : str) (s : controller (record k)) :
  parsed k v' = parsed k v ->
  exec (set_value k v') (exec (set_value k v) s) = exec (set_value k v) s
  /\ (parsed k v = stored k (_data s) ->
      exec (set_value k v ;; set_value k v') s = s)
  /\ (parsed k v <> stored k (_data s) ->
      exec (set_value k v ;; set_value k v') s = exec (_set k v ;; mark_dirty) s
      /\ calls_since s (exec (set_value k v ;; set_value k v') s)
         = _set_calls k ++ [Parent.mark_dirty]
      /\ dirty_marks (calls_since s (exec (set_value k v ;; set_value k v') s))
         = 1).
Proof.
  intros Hsame.
  assert (Hseq : exec (set_value k v ;; set_value k v') s
                 = exec (set_value k v') (exec (set_value k v) s)).
  { unfold exec, bind. destruct (set_value k v s) as [[] s1]. reflexivity. }
  assert (Hsecond : exec (set_value k v') (exec (set_value k v) s)
                    = exec (set_value k v) s).
  { apply set_value_noop_iff. rewrite Hsame.
    destruct (_changed k v (_data s)) eqn:Hc.
    - apply _changed_true_iff, set_value_changed in Hc.
      symmetry. apply Hc.
    - rewrite set_value_unfold, Hc. apply _changed_false_iff, Hc. }
  split; [exact Hsecond | split].
  - intros Heq. rewrite Hseq, Hsecond. apply set_value_noop_iff, Heq.
  - intros Hne. rewrite Hseq, Hsecond.
    destruct (set_value_changed k v s Hne) as (E1 & _ & E3).
    split; [exact E1 | split; [exact E3 |]].
    rewrite E3. destruct k; reflexivity.
Qed.

Lemma set_value_twice_writes_once_witness :
  parsed (U := utils_model.utils) Arguments_ (py "${a}|${b}")
  = parsed (U := utils_model.utils) Arguments_ (py "${a} | ${b}")
  /\ exec (set_value (U := utils_model.utils) Arguments_ (py "${a}|${b}"))
       (exec (set_value (U := utils_model.utils) Arguments_ (py "${a} | ${b}"))
          {| _data := {| Sequence.value := None; Sequence.comment := None |};
             _parent := {| Parent.calls := [] |} |})
     = exec (set_value (U := utils_model.utils) Arguments_ (py "${a} | ${b}"))
         {| _data := {| Sequence.value := None; Sequence.comment := None |};
            _parent := {| Parent.calls := [] |} |}.
Proof.
  split; [reflexivity |].
  apply (set_value_twice_writes_once (U := utils_model.utils) Arguments_
           (py "${a} | ${b}") (py "${a}|${b}")).
  reflexivity.
Defined.

(** C7, as stated, fails for the metadata controller, whose [set_value]
    writes and marks the owner dirty on every call: two calls with the same
    name and value mark the owner dirty twice. *)
Lemma metadata_set_value_twice_marks_dirty_twice :
  exec (MetadataController.set_value (py "Author") (py "me") ;;
        MetadataController.set_value (py "Author") (py "me"))
    {| _data := {| Metadata.name := None; Metadata.value := None |};
       _parent := {| Parent.calls := [] |} |}
  = {| _data := {| Metadata.name := Some (py "Author");
                   Metadata.value := Some (py "me") |};
       _parent := {| Parent.calls := [Parent.mark_dirty; Parent.mark_dirty] |} |}.
Proof. reflexivity. Qed.

(** ** [TemplateController] *)

(** C4 (amended).  On a template controller, [_set] writes the value and
    notifies the owner that its steps changed; a [set_value] that changes
    the value does so through [_set] and marks the owner dirty afterwards;
    [clear] resets the record, removes the comment, marks the owner dirty
    and then notifies it that its steps changed.  [replace_keyword] writes
    the new name and marks the owner dirty, and makes no other call. *)
Theorem template_controller_notifications {U : Utils}
    (reset : Scalar.t -> Scalar.t) (v : str) (s : controller Scalar.t) :
  (_data (exec (TemplateController._set v) s)
     = Scalar.with_value (Some v) (_data s)
   /\ calls_since s (exec (TemplateController._set v) s)
      = [Parent.notify_steps_changed])
  /\ (Scalar.value (_data s) <> Some v ->
      _data (exec (set_value Template_ v) s)
        = Scalar.with_value (Some v) (_data s)
      /\ calls_since s (exec (set_value Template_ v) s)
         = [Parent.notify_steps_changed; Parent.mark_dirty])
  /\ (_data (exec (TemplateController.clear reset) s)
        = Scalar.with_comment None (reset (_data s))
      /\ calls_since s (exec (TemplateController.clear reset) s)
         = [Parent.mark_dirty; Parent.notify_steps_changed])
  /\ (_data (exec (TemplateController.replace_keyword v) s)
        = Scalar.with_value (Some v) (_data s)
      /\ calls_since s (exec (TemplateController.replace_keyword v) s)
         = [Parent.mark_dirty]).
Proof.
  split; [split; [reflexivity | apply calls_since_app; reflexivity] |].
  split.
  - intros Hne.
    assert (Hp : parsed Template_ v <> stored Template_ (_data s))
      by (simpl; congruence).
    destruct (set_value_changed Template_ v s Hp) as (E & _ & Ec).
    split; [rewrite E; reflexivity | exact Ec].
  - split; split; try reflexivity; apply calls_since_app; cbn;
      rewrite <- ?app_assoc; reflexivity.
Qed.

Lemma template_controller_notifications_witness :
  Scalar.value
    (_data {| _data := {| Scalar.value := None; Scalar.comment := None |};
              _parent := {| Parent.calls := [Parent.mark_dirty] |} |})
  <> Some (py "Log Many")
  /\ calls_since
       {| _data := {| Scalar.value := None; Scalar.comment := None |};
          _parent := {| Parent.calls := [Parent.mark_dirty] |} |}
       (exec (set_value (U := utils_model.utils) Template_ (py "Log Many"))
          {| _data := {| Scalar.value := None; Scalar.comment := None |};
             _parent := {| Parent.calls := [Parent.mark_dirty] |} |})
     = [Parent.notify_steps_changed; Parent.mark_dirty].
Proof.
  split; [discriminate |].
  apply (template_controller_notifications (U := utils_model.utils)
           (fun d => d) (py "Log Many")).
  discriminate.
Defined.

(** C4, as stated, fails for [replace_keyword]: the only call it makes on
    the owner is [mark_dirty]. *)
Lemma template_replace_keyword_only_marks_dirty :
  exec (TemplateController.replace_keyword (py "Log Many"))
    {| _data := {| Scalar.value := Some (py "Log"); Scalar.comment := None |};
       _parent := {| Parent.calls := [] |} |}
  = {| _data := {| Scalar.value := Some (py "Log Many");
                   Scalar.comment := None |};
       _parent := {| Parent.calls := [Parent.mark_dirty] |} |}.
Proof. reflexivity. Qed.

(** ** Iteration over tags *)

Lemma enumerate_from_combine {A} (l : list A) (i : nat) :
  enumerate_from i l = combine (seq i (length l)) l.
Proof.
  revert i; induction l as [|a l IH]; intros i; simpl;
    [reflexivity | rewrite IH; reflexivity].
Qed.

Lemma enumerate_combine {A} (l : list A) :
  enumerate l = combine (seq 0 (length l)) l.
Proof. apply enumerate_from_combine. Qed.

Lemma nth_error_enumerate_from {A} (l : list A) (start i : nat) (a : A) :
  nth_error l i = Some a ->
  nth_error (enumerate_from start l) i = Some (start + i, a).
Proof.
  revert start i; induction l as [|b l IH]; intros start [|i]; simpl;
    try discriminate.
  - intros E; injection E as ->. rewrite Nat.add_0_r. reflexivity.
  - intros E. rewrite (IH (S start) i E). f_equal. f_equal. lia.
Qed.

Lemma nth_error_enumerate {A} (l : list A) (i : nat) (a : A) :
  nth_error l i = Some a -> nth_error (enumerate l) i = Some (i, a).
Proof. apply (nth_error_enumerate_from l 0). Qed.

Lemma entity_induction (P : entity -> Prop) :
  (forall t c, P (Entity t c None)) ->
  (forall t c above, P above -> P (Entity t c (Some above))) ->
  forall obj, P obj.
Proof.
  intros Htop Hstep. fix IH 1. intros [t c [above|]].
  - apply Hstep, IH.
  - apply Htop.
Qed.

Lemma _gather_from_data_level (obj : entity) :
  ForceTagsController._gather_from_data (_setting_table_force_tags obj)
    (force_tags obj)
  = level_force_tags obj.
Proof.
  unfold ForceTagsController._gather_from_data, level_force_tags.
  destruct (Sequence.value (_setting_table_force_tags obj));
    [rewrite enumerate_combine |]; reflexivity.
Qed.

(** The recursion of the source: one more level is put in front of the
    result and the walk goes on from the parent. *)
Lemma _recursive_gather_from_step (obj : entity) (result : list tags.t) :
  ForceTagsController._recursive_gather_from (Some obj) result
  = ForceTagsController._recursive_gather_from (parent obj)
      (ForceTagsController._gather_from_data (_setting_table_force_tags obj)
         (force_tags obj) ++ result).
Proof. destruct obj as [t c [above|]]; reflexivity. Qed.

Lemma gather_from_entity_levels (obj : entity) (result : list tags.t) :
  ForceTagsController.gather_from_entity obj result
  = concat (map level_force_tags (rev (ancestors_of obj))) ++ result.
Proof.
  revert result. induction obj as [t c | t c above IH] using entity_induction;
    intros result.
  - cbn - [level_force_tags]. rewrite app_nil_r.
    rewrite <- _gather_from_data_level. reflexivity.
  - change (ForceTagsController.gather_from_entity (Entity t c (Some above)) result)
      with (ForceTagsController.gather_from_entity above
              (ForceTagsController._gather_from_data t c ++ result)).
    rewrite IH.
    change (ancestors_of (Entity t c (Some above)))
      with (Entity t c (Some above) :: ancestors_of above).
    cbn [rev]. rewrite map_app, concat_app. cbn [map concat].
    rewrite app_nil_r, <- app_assoc, <- _gather_from_data_level. reflexivity.
Qed.

(** C2.  Iterating a force tags controller yields the force tags of every
    level of the hierarchy above it, the topmost ancestor's first and those
    of the controller's own owner last, each as a forced tag that carries
    the force tags controller of its level; a level whose force tags are
    unset contributes nothing. *)
Theorem force_tags_iter_outermost_first (c : ForceTagsController.t) :
  ForceTagsController.__iter__ c
  = concat (map level_force_tags
              (rev (ancestors (ForceTagsController.parent c))))
  /\ forall obj,
       Sequence.value (_setting_table_force_tags obj) = None ->
       level_force_tags obj = [].
Proof.
  split.
  - unfold ForceTagsController.__iter__, ForceTagsController._recursive_gather_from.
    destruct (ForceTagsController.parent c) as [obj|]; [|reflexivity].
    rewrite gather_from_entity_levels, app_nil_r. reflexivity.
  - intros obj Hnone. unfold level_force_tags. rewrite Hnone. reflexivity.
Qed.

Lemma force_tags_iter_outermost_first_witness :
  Sequence.value
    (_setting_table_force_tags
       (Entity {| Sequence.value := None; Sequence.comment := None |} 7 None))
  = None
  /\ level_force_tags
       (Entity {| Sequence.value := None; Sequence.comment := None |} 7 None)
     = [].
Proof.
  split; [reflexivity |].
  apply (force_tags_iter_outermost_first
           {| ForceTagsController.self := 0;
              ForceTagsController._tags :=
                {| Sequence.value := None; Sequence.comment := None |};
              ForceTagsController.parent := None |}).
  reflexivity.
Defined.

(** The example of the specification: three nested files that declare
    [f1], [f2] and [f3]; the innermost sees them in this order. *)
Example force_tags_of_three_files :
  map tags.name
    (ForceTagsController.__iter__
       {| ForceTagsController.self := 3;
          ForceTagsController._tags :=
            {| Sequence.value := Some [py "f3"]; Sequence.comment := None |};
          ForceTagsController.parent :=
            Some (Entity {| Sequence.value := Some [py "f3"];
                            Sequence.comment := None |} 3
                    (Some (Entity {| Sequence.value := Some [py "f2"];
                                     Sequence.comment := None |} 2
                             (Some (Entity {| Sequence.value := Some [py "f1"];
                                              Sequence.comment := None |} 1
                                      None))))) |})
  = [py "f1"; py "f2"; py "f3"].
Proof. reflexivity. Qed.

(** C3.  Iterating a tags controller yields the forced tags of the
    hierarchy above its owner first: the force tags of every level, the
    topmost level's first, each as a forced tag of its level.  After them
    come, when the value is unset, the default tags of the owner, one
    default tag for every default name with the position of the name as
    its index; one tag with an empty name and no index when the value is
    the empty list; and otherwise one tag for every stored name, in the
    stored order, with the position of the name as its index. *)
Theorem tags_iter_forced_then_local (c : TagsController.t) :
  exists after,
    TagsController.__iter__ c
    = concat (map level_force_tags
                (rev (ancestors
                        (ForceTagsController.parent
                           (owner_force_tags (TagsController._parent c))))))
      ++ after
    /\ match Sequence.value (TagsController._tags c) with
       | None =>
           match Sequence.value
                   (DefaultTagsController._tags
                      (owner_default_tags (TagsController._parent c))) with
           | None => after = []
           | Some defaults =>
               length after = length defaults
               /\ forall i name,
                    nth_error defaults i = Some name ->
                    nth_error after i
                    = Some {| tags.cls := tags.DefaultTag; tags.name := name;
                              tags.index := Some i;
                              tags.controller :=
                                Some (DefaultTagsController.self
                                        (owner_default_tags
                                           (TagsController._parent c))) |}
           end
       | Some [] =>
           after = [ {| tags.cls := tags.Tag; tags.name := [];
                        tags.index := None;
                        tags.controller := Some (TagsController.self c) |} ]
       | Some value =>
           length after = length value
           /\ forall i name,
                nth_error value i = Some name ->
                nth_error after i
                = Some {| tags.cls := tags.Tag; tags.name := name;
                          tags.index := Some i;
                          tags.controller := Some (TagsController.self c) |}
       end.
Proof.
  assert (Hforced :
    ForceTagsController.__iter__ (owner_force_tags (TagsController._parent c))
    = concat (map level_force_tags
                (rev (ancestors
                        (ForceTagsController.parent
                           (owner_force_tags (TagsController._parent c))))))).
  { unfold ForceTagsController.__iter__,
      ForceTagsController._recursive_gather_from.
    destruct (ForceTagsController.parent
                (owner_force_tags (TagsController._parent c))) as [obj|];
      [|reflexivity].
    rewrite gather_from_entity_levels, app_nil_r. reflexivity. }
  assert (Hlength : forall (value : list str) (f : nat * str -> tags.t),
    length (map f (enumerate value)) = length value).
  { intros value f.
    rewrite length_map, enumerate_combine, length_combine, length_seq.
    apply Nat.min_id. }
  unfold TagsController.__iter__. rewrite Hforced.
  destruct (Sequence.value (TagsController._tags c)) as [[|t value]|].
  - eexists; split; reflexivity.
  - eexists; split; [reflexivity |]. split; [apply Hlength |].
    intros i name Hnth. rewrite nth_error_map.
    rewrite (nth_error_enumerate _ _ Hnth). reflexivity.
  - unfold DefaultTagsController.__iter__.
    destruct (Sequence.value
                (DefaultTagsController._tags
                   (owner_default_tags (TagsController._parent c))))
      as [defaults|].
    + eexists; split; [reflexivity |]. split; [apply Hlength |].
      intros i name Hnth. rewrite nth_error_map.
      rewrite (nth_error_enumerate _ _ Hnth). reflexivity.
    + eexists; split; reflexivity.
Qed.

(** A test with two tags of its own below a file that forces one tag. *)
Example tags_of_a_test_with_two_tags :
  map (fun t => (tags.cls t, tags.name t, tags.index t))
    (TagsController.__iter__
       {| TagsController.self := 9;
          TagsController._tags :=
            {| Sequence.value := Some [py "smoke"; py "slow"];
               Sequence.comment := None |};
          TagsController._parent :=
            {| owner_force_tags :=
                 {| ForceTagsController.self := 1;
                    ForceTagsController._tags :=
                      {| Sequence.value := Some [py "f1"];
                         Sequence.comment := None |};
                    ForceTagsController.parent :=
                      Some (Entity {| Sequence.value := Some [py "f1"];
                                      Sequence.comment := None |} 1 None) |};
               owner_default_tags :=
                 {| DefaultTagsController.self := 2;
                    DefaultTagsController._tags :=
                      {| Sequence.value := Some [py "d1"];
                         Sequence.comment := None |} |} |} |})
  = [ (tags.ForcedTag, py "f1", Some 0);
      (tags.Tag, py "smoke", Some 0);
      (tags.Tag, py "slow", Some 1) ].
Proof. reflexivity. Qed.

(** ** [VariableController] *)

Lemma Variable_hash_consistent (v w : Variable_.t) :
  Variable_.eqb v w = true -> Variable_.hash v = Variable_.hash w.
Proof.
  unfold Variable_.eqb, Variable_.hash. rewrite andb_true_iff.
  intros [Hn Hv]. apply str_eqb_eq in Hn. apply strs_eqb_eq in Hv.
  rewrite Hn, Hv. reflexivity.
Qed.

(** C9.  Provided the hash of variable records agrees with their equality:
    two variable controllers are equal exactly when they are the same
    object or their records are equal; comparing a controller with [None]
    or with an instance of another class gives [False]; no comparison
    raises; and controllers with equal records have equal hashes. *)
Theorem variable_controller_equality (variable : Type)
    (variable_eq : variable -> variable -> bool)
    (variable_hash : variable -> Z)
    (a b : VariableController.t variable) (other : VariableController.object variable) :
  (forall v w, variable_eq v w = true -> variable_hash v = variable_hash w) ->
  (VariableController.__eq__ variable_eq a (VariableController.Controller b)
     = Some true
   <-> VariableController.self a = VariableController.self b
       \/ variable_eq (VariableController._var a) (VariableController._var b)
          = true)
  /\ VariableController.__eq__ variable_eq a (VariableController.PyNone variable)
     = Some false
  /\ (forall class_name id,
        VariableController.__eq__ variable_eq a
          (VariableController.Instance variable class_name id)
        = Some false)
  /\ (exists r, VariableController.__eq__ variable_eq a other = Some r)
  /\ (variable_eq (VariableController._var a) (VariableController._var b) = true ->
      VariableController.__hash__ variable_hash a
      = VariableController.__hash__ variable_hash b).
Proof.
  intros Hhash. split; [|split; [|split; [|split]]].
  - unfold VariableController.__eq__. simpl.
    destruct (VariableController.self a =? VariableController.self b) eqn:Hid.
    + apply Nat.eqb_eq in Hid. tauto.
    + apply Nat.eqb_neq in Hid. split.
      * intros E; injection E as E; right; exact E.
      * intros [Hsame | E]; [contradiction | rewrite E; reflexivity].
  - reflexivity.
  - reflexivity.
  - unfold VariableController.__eq__.
    destruct other as [|c|n i]; simpl;
      [eexists; reflexivity | | eexists; reflexivity].
    destruct (VariableController.self a =? VariableController.self c);
      eexists; reflexivity.
  - intros E. unfold VariableController.__hash__.
    rewrite (Hhash _ _ E). reflexivity.
Qed.

Lemma variable_controller_equality_witness :
  VariableController.__eq__ Variable_.eqb
    {| VariableController.self := 1;
       VariableController._var :=
         {| Variable_.name := py "${x}"; Variable_.value := [py "1"] |} |}
    (VariableController.Controller
       {| VariableController.self := 2;
          VariableController._var :=
            {| Variable_.name := py "${x}"; Variable_.value := [py "1"] |} |})
  = Some true
  /\ VariableController.__hash__ Variable_.hash
       {| VariableController.self := 1;
          VariableController._var :=
            {| Variable_.name := py "${x}"; Variable_.value := [py "1"] |} |}
     = VariableController.__hash__ Variable_.hash
         {| VariableController.self := 2;
            VariableController._var :=
              {| Variable_.name := py "${x}"; Variable_.value := [py "1"] |} |}.
Proof.
  split; [reflexivity |].
  apply (variable_controller_equality Variable_.eqb Variable_.hash
           {| VariableController.self := 1;
              VariableController._var :=
                {| Variable_.name := py "${x}"; Variable_.value := [py "1"] |} |}
           {| VariableController.self := 2;
              VariableController._var :=
                {| Variable_.name := py "${x}"; Variable_.value := [py "1"] |} |}
           (VariableController.PyNone Variable_.t)
           Variable_hash_consistent).
  reflexivity.
Defined.

(** ** [ResourceImportController] *)

Section Resolution.

Variable factory : Type.
Variable resource : Type.
Variable find_with_import : factory -> Import_.t -> option resource * factory.

(** A call on an unresolved controller asks the factory and keeps the
    answer. *)
Lemma get_imported_controller_resolves (s : _ImportController.t factory resource) :
  _ImportController._resolved_import s = false ->
  ResourceImportController.get_imported_controller find_with_import s
  = (Some (ResourceImportController.answer find_with_import s),
     ResourceImportController.resolved find_with_import s).
Proof.
  intros Hunresolved.
  unfold ResourceImportController.get_imported_controller, bind, gets, when, modify,
    ResourceImportController.resolved, ResourceImportController.answer.
  rewrite Hunresolved. simpl.
  destruct (find_with_import _ _) as [found factory']. reflexivity.
Qed.

(** A call on a resolved controller returns what is kept and changes
    nothing. *)
Lemma get_imported_controller_cached (s : _ImportController.t factory resource) :
  _ImportController._resolved_import s = true ->
  ResourceImportController.get_imported_controller find_with_import s
  = (_ImportController._imported_resource_controller s, s).
Proof.
  intros Hresolved.
  unfold ResourceImportController.get_imported_controller, bind, gets, when, ret.
  rewrite Hresolved. reflexivity.
Qed.

(** C10.  The first [get_imported_controller] on a freshly built
    controller asks the owner's factory about the import record, returns
    the factory's answer, be it a controller or [None], and keeps it.  The
    same holds for a controller in any state once [unresolve] was called.
    Every later call returns the answer that is kept and changes nothing,
    so the factory is not asked again.  After another [unresolve] the next
    call asks the factory again, in the state the first resolution left
    it in. *)
Theorem get_imported_controller_caches_until_unresolve
    (s : _ImportController.t factory resource)
    (parent_factory : factory) (import_ : Import_.t) (n : nat) :
  (ResourceImportController.get_imported_controller find_with_import
     (ResourceImportController.new parent_factory import_)
   = (Some (fst (find_with_import parent_factory import_)),
      ResourceImportController.resolved find_with_import
        (ResourceImportController.new parent_factory import_))
   /\ _ImportController.lookups
        (ResourceImportController.resolved find_with_import
           (ResourceImportController.new (resource := resource)
              parent_factory import_))
      = [import_])
  /\ ResourceImportController.get_imported_controller find_with_import
       (exec ResourceImportController.unresolve s)
     = (Some (ResourceImportController.answer find_with_import s),
        ResourceImportController.resolved find_with_import
          (exec ResourceImportController.unresolve s))
  /\ ResourceImportController.get_imported_controller find_with_import
       (Nat.iter n
          (exec (ResourceImportController.get_imported_controller find_with_import))
          (ResourceImportController.resolved find_with_import
             (exec ResourceImportController.unresolve s)))
     = (Some (ResourceImportController.answer find_with_import s),
        ResourceImportController.resolved find_with_import
          (exec ResourceImportController.unresolve s))
  /\ ResourceImportController.get_imported_controller find_with_import
       (exec ResourceImportController.unresolve
          (ResourceImportController.resolved find_with_import
             (exec ResourceImportController.unresolve s)))
     = (Some (fst (find_with_import
                     (snd (find_with_import
                             (_ImportController.resource_file_controller_factory s)
                             (_ImportController._import s)))
                     (_ImportController._import s))),
        ResourceImportController.resolved find_with_import
          (ResourceImportController.resolved find_with_import
             (exec ResourceImportController.unresolve s)))
  /\ _ImportController.lookups
       (ResourceImportController.resolved find_with_import
          (ResourceImportController.resolved find_with_import
             (exec ResourceImportController.unresolve s)))
     = _ImportController.lookups s
       ++ [_ImportController._import s; _ImportController._import s].
Proof.
  split; [split; [|reflexivity] |].
  { rewrite get_imported_controller_resolves by reflexivity. reflexivity. }
  split; [rewrite get_imported_controller_resolves by reflexivity; reflexivity |].
  split; [|split].
  - assert (Hiter :
      Nat.iter n
        (exec (ResourceImportController.get_imported_controller find_with_import))
        (ResourceImportController.resolved find_with_import
           (exec ResourceImportController.unresolve s))
      = ResourceImportController.resolved find_with_import
          (exec ResourceImportController.unresolve s)).
    { induction n as [|m IH]; [reflexivity |].
      cbn [Nat.iter nat_rect]. unfold Nat.iter in IH. rewrite IH.
      unfold exec at 1. rewrite get_imported_controller_cached; reflexivity. }
    rewrite Hiter, get_imported_controller_cached; reflexivity.
  - rewrite get_imported_controller_resolves by reflexivity. reflexivity.
  - cbn. rewrite <- app_assoc. reflexivity.
Qed.

End Resolution.

Section ChangeName.

Context {U : Utils}.
Variable factory : Type.
Variable resource : Type.

(** When the name ends with a non-empty [old_name], [change_name] puts
    [new_name] in its place and writes the result through [set_value]. *)
Lemma change_name_rewrites (before old_name new_name : str)
    (s : _ImportController.t factory resource) :
  _ImportController.name s = before ++ old_name ->
  old_name <> [] ->
  exec (ResourceImportController.change_name old_name new_name) s
  = exec (_ImportController.set_value (before ++ new_name) None []) s.
Proof.
  intros Hname Hne.
  unfold ResourceImportController.change_name, exec, bind, gets, when.
  unfold ResourceImportController.contains_filename.
  rewrite Hname.
  rewrite (proj2 (endswith_iff (before ++ old_name) old_name))
    by (exists before; reflexivity).
  rewrite slice_to_minus_length by exact Hne. reflexivity.
Qed.

(** When the name does not end with [old_name], nothing happens. *)
Lemma change_name_noop (old_name new_name : str)
    (s : _ImportController.t factory resource) :
  endswith (_ImportController.name s) old_name = false ->
  exec (ResourceImportController.change_name old_name new_name) s = s.
Proof.
  intros Hends.
  unfold ResourceImportController.change_name, exec, bind, gets, when.
  unfold ResourceImportController.contains_filename. rewrite Hends. reflexivity.
Qed.

(** [set_value] of a name alone: the record gets the name, the arguments
    of an empty argument list and an empty alias; the owner is marked dirty
    and told that the imports were modified and, for a resource import,
    which resource; the change is published. *)
Lemma set_value_name (name : str) (s : _ImportController.t factory resource) :
  exec (_ImportController.set_value name None []) s
  = {| _ImportController._import :=
         {| Import_.type := Import_.type (_ImportController._import s);
            Import_.name := name;
            Import_.args := split_value_nil;
            Import_.alias := [] |};
       _ImportController.is_resource := _ImportController.is_resource s;
       _ImportController._resolved_import :=
         _ImportController._resolved_import s;
       _ImportController._imported_resource_controller :=
         _ImportController._imported_resource_controller s;
       _ImportController._parent :=
         {| Parent.calls :=
              Parent.calls (_ImportController._parent s)
              ++ [Parent.mark_dirty; Parent.notify_imports_modified]
              ++ (if _ImportController.is_resource s
                  then [Parent.resource_import_modified name] else []) |};
       _ImportController.published :=
         _ImportController.published s
         ++ [_ImportController.RideImportSettingChanged name
               (lower (Import_.type (_ImportController._import s)))];
       _ImportController.resource_file_controller_factory :=
         _ImportController.resource_file_controller_factory s;
       _ImportController.lookups := _ImportController.lookups s |}.
Proof.
  unfold _ImportController.set_value, _ImportController.publish_edited,
    _ImportController.import_loaded_or_modified, exec, bind, gets, modify,
    _ImportController.with_import, _ImportController.tell_parent,
    _ImportController.publish, Parent.called, _ImportController.name, ret.
  cbn. destruct (_ImportController.is_resource s); cbn;
    rewrite <- ?app_assoc; reflexivity.
Qed.

End ChangeName.

(** C8 at an empty [old_name].  Every name ends with the empty string, and
    putting [new.txt] in the place of the empty string at the end of
    [resource.txt] would give [resource.txtnew.txt]; the slice of the source
    is then empty, and the name becomes [new.txt]. *)
Theorem change_name_empty_old_name_drops_the_name :
  endswith (py "resource.txt") [] = true
  /\ py "resource.txt" = py "resource.txt" ++ []
  /\ Import_.name
       (_ImportController._import
          (exec (ResourceImportController.change_name (U := utils_model.utils)
                   [] (py "new.txt"))
             (ResourceImportController.new (resource := unit) tt
                {| Import_.type := py "Resource";
                   Import_.name := py "resource.txt";
                   Import_.args := [];
                   Import_.alias := [] |})))
     = py "new.txt".
Proof. repeat split. Qed.

(** ** Runs of backslashes *)

Lemma eqb_backslash_false (c : ascii) :
  c <> backslash -> Ascii.eqb c backslash = false.
Proof. intros H. apply Ascii.eqb_neq, H. Qed.

Lemma count_backslashes_run (k : nat) (s : str) :
  no_leading_backslash s ->
  re.count_backslashes (repeat backslash k ++ s) = k.
Proof.
  intros Hs. induction k as [|k IH]; cbn [repeat app re.count_backslashes].
  - destruct s as [|c s]; [reflexivity |].
    cbn [re.count_backslashes]. rewrite (eqb_backslash_false Hs). reflexivity.
  - rewrite Ascii.eqb_refl, IH. reflexivity.
Qed.

Lemma skipn_run (k : nat) (s : str) :
  skipn k (repeat backslash k ++ s) = s.
Proof. induction k as [|k IH]; [reflexivity | exact IH]. Qed.

Lemma skipn_run_more (k n : nat) (s : str) :
  skipn (k + n) (repeat backslash k ++ s) = skipn n s.
Proof. induction k as [|k IH]; [reflexivity | exact IH]. Qed.

Lemma skipn_run_less (j k : nat) (s : str) :
  j <= k ->
  skipn j (repeat backslash k ++ s) = repeat backslash (k - j) ++ s.
Proof.
  revert k; induction j as [|j IH]; intros k Hle.
  - rewrite Nat.sub_0_r. reflexivity.
  - destruct k as [|k]; [lia |]. simpl. apply IH. lia.
Qed.

Lemma firstn_run (k : nat) (s : str) :
  firstn k (repeat backslash k ++ s) = repeat backslash k.
Proof.
  rewrite firstn_app, repeat_length, Nat.sub_diag, firstn_O, app_nil_r.
  rewrite <- (repeat_length backslash k) at 1. apply firstn_all.
Qed.

Lemma firstn_run_literal (k : nat) (lit rest : str) :
  firstn (k + length lit) (repeat backslash k ++ lit ++ rest)
  = repeat backslash k ++ lit.
Proof.
  rewrite app_assoc.
  rewrite <- (repeat_length backslash k) at 1. rewrite <- length_app.
  rewrite firstn_app, Nat.sub_diag, firstn_O, app_nil_r. apply firstn_all.
Qed.

(** ** [re.sub] on a run *)

Section Sub.

Variable p : re.pattern.
Variable repl : re.match_object -> str.

(** The literal text of the pattern begins with a character that is not a
    backslash; this holds for the three patterns of the controller. *)
Variable first : ascii.
Variable others : str.
Hypothesis literal_first : re.literal p = first :: others.
Hypothesis first_no_backslash : first <> backslash.

Lemma sub_from_skip (n : nat) (s : str) :
  re.sub_from p repl n s = re.sub p repl (skipn n s).
Proof.
  revert n; induction s as [|c s IH]; intros [|n]; try reflexivity.
  simpl. apply IH.
Qed.

Lemma startswith_run_false (j : nat) (s : str) :
  0 < j -> startswith (repeat backslash j ++ s) (re.literal p) = false.
Proof.
  intros Hj. destruct j as [|j]; [lia |]. rewrite literal_first. simpl.
  rewrite (proj2 (Ascii.eqb_neq first backslash) first_no_backslash).
  reflexivity.
Qed.

Lemma backtrack_S (lit s : str) (k : nat) :
  re.backtrack lit s (S k)
  = if startswith (skipn (S k) s) lit then Some (S k)
    else re.backtrack lit s k.
Proof. reflexivity. Qed.

Lemma backtrack_inside_run (k j : nat) (s : str) :
  j < k -> re.backtrack (re.literal p) (repeat backslash k ++ s) j = None.
Proof.
  intros Hlt. induction j as [|j IH]; [reflexivity |].
  rewrite backtrack_S, skipn_run_less by lia.
  rewrite startswith_run_false by lia. apply IH. lia.
Qed.

Lemma backtrack_whole_run (k : nat) (s : str) :
  0 < k ->
  re.backtrack (re.literal p) (repeat backslash k ++ s) k
  = if startswith s (re.literal p) then Some k else None.
Proof.
  intros Hk. destruct k as [|k]; [lia |].
  rewrite backtrack_S, skipn_run.
  destruct (startswith s (re.literal p)); [reflexivity |].
  apply backtrack_inside_run. lia.
Qed.

Lemma sub_plain (c : ascii) (s : str) :
  c <> backslash -> re.sub p repl (c :: s) = c :: re.sub p repl s.
Proof.
  intros Hc. unfold re.sub. simpl. unfold re.match_at. simpl.
  rewrite (eqb_backslash_false Hc). reflexivity.
Qed.

Lemma sub_nil : re.sub p repl [] = [].
Proof. reflexivity. Qed.

(** A run that the literal text does not follow is copied. *)
Lemma sub_run_copied (k : nat) (s : str) :
  no_leading_backslash s ->
  startswith s (re.literal p) = false ->
  re.sub p repl (repeat backslash k ++ s)
  = repeat backslash k ++ re.sub p repl s.
Proof.
  intros Hs Hno. induction k as [|k IH]; [reflexivity |].
  unfold re.sub. cbn [repeat app re.sub_from]. unfold re.match_at.
  change (backslash :: repeat backslash k ++ s)
    with (repeat backslash (S k) ++ s).
  rewrite count_backslashes_run by exact Hs.
  rewrite backtrack_whole_run by lia. rewrite Hno.
  f_equal. exact IH.
Qed.

(** A run that the literal text follows is handed to the replacement
    function together with the literal text, and the substitution goes on
    after the literal text. *)
Lemma sub_run_matched (k : nat) (s : str) :
  0 < k ->
  no_leading_backslash (re.literal p ++ s) ->
  re.sub p repl (repeat backslash k ++ re.literal p ++ s)
  = repl {| re.group1 := repeat backslash k;
            re.group0 := repeat backslash k ++ re.literal p |}
    ++ re.sub p repl s.
Proof.
  intros Hk Hs. destruct k as [|k]; [lia |].
  unfold re.sub. cbn [repeat app re.sub_from]. unfold re.match_at.
  change (backslash :: repeat backslash k ++ re.literal p ++ s)
    with (repeat backslash (S k) ++ re.literal p ++ s).
  rewrite count_backslashes_run by exact Hs.
  rewrite backtrack_whole_run by lia. rewrite startswith_app.
  rewrite firstn_run, firstn_run_literal. cbn [re.group0].
  f_equal. rewrite sub_from_skip. f_equal.
  rewrite length_app, repeat_length.
  replace (S k + length (re.literal p) - 1) with (k + length (re.literal p))
    by lia.
  rewrite skipn_run_more, skipn_app, skipn_all, Nat.sub_diag. reflexivity.
Qed.

End Sub.

(** ** Unescaping the documentation *)

Lemma mod2_odd (k : nat) : (k mod 2 =? 1) = Nat.odd k.
Proof.
  rewrite <- Nat.bit0_odd. pose proof (Nat.bit0_mod k) as H.
  destruct (Nat.testbit k 0); cbn [Nat.b2n] in H; rewrite <- H; reflexivity.
Qed.

Lemma _newline_replacer_run (k : nat) (whole : str) :
  DocumentationController._newline_replacer
    {| re.group1 := repeat backslash k; re.group0 := whole |}
  = if Nat.odd k then repeat backslash (k - 1) ++ [LF] else whole.
Proof.
  unfold DocumentationController._newline_replacer. cbn [re.group1 re.group0].
  rewrite repeat_length, mod2_odd. reflexivity.
Qed.

Lemma _unescape_passes (item : str) :
  DocumentationController._unescape_newlines_and_handle_escaped_backslashes item
  = pass_r (pass_n (pass_rn item)).
Proof. reflexivity. Qed.

Lemma r_no_backslash : "r"%char <> backslash.
Proof. discriminate. Qed.
Lemma n_no_backslash : "n"%char <> backslash.
Proof. discriminate. Qed.
Lemma LF_no_backslash : LF <> backslash.
Proof. discriminate. Qed.

Lemma pass_rn_plain (c : ascii) (s : str) :
  c <> backslash -> pass_rn (c :: s) = c :: pass_rn s.
Proof. apply sub_plain. Qed.
Lemma pass_n_plain (c : ascii) (s : str) :
  c <> backslash -> pass_n (c :: s) = c :: pass_n s.
Proof. apply sub_plain. Qed.
Lemma pass_r_plain (c : ascii) (s : str) :
  c <> backslash -> pass_r (c :: s) = c :: pass_r s.
Proof. apply sub_plain. Qed.

Lemma pass_rn_copied (k : nat) (s : str) :
  no_leading_backslash s -> startswith s (py "r\n") = false ->
  pass_rn (repeat backslash k ++ s) = repeat backslash k ++ pass_rn s.
Proof.
  apply (@sub_run_copied {| re.literal := py "r\n" |} _ "r"%char
           [backslash; "n"%char] eq_refl r_no_backslash).
Qed.
Lemma pass_n_copied (k : nat) (s : str) :
  no_leading_backslash s -> startswith s (py "n") = false ->
  pass_n (repeat backslash k ++ s) = repeat backslash k ++ pass_n s.
Proof.
  apply (@sub_run_copied {| re.literal := py "n" |} _ "n"%char
           [] eq_refl n_no_backslash).
Qed.
Lemma pass_r_copied (k : nat) (s : str) :
  no_leading_backslash s -> startswith s (py "r") = false ->
  pass_r (repeat backslash k ++ s) = repeat backslash k ++ pass_r s.
Proof.
  apply (@sub_run_copied {| re.literal := py "r" |} _ "r"%char
           [] eq_refl r_no_backslash).
Qed.

Lemma pass_rn_matched (k : nat) (s : str) :
  0 < k ->
  pass_rn (repeat backslash k ++ "r"%char :: backslash :: "n"%char :: s)
  = (if Nat.odd k then repeat backslash (k - 1) ++ [LF]
     else repeat backslash k ++ ["r"%char; backslash; "n"%char])
    ++ pass_rn s.
Proof.
  intros Hk. rewrite <- _newline_replacer_run.
  apply (@sub_run_matched {| re.literal := py "r\n" |} _ "r"%char
           [backslash; "n"%char] eq_refl r_no_backslash k s Hk r_no_backslash).
Qed.
Lemma pass_n_matched (k : nat) (s : str) :
  0 < k ->
  pass_n (repeat backslash k ++ "n"%char :: s)
  = (if Nat.odd k then repeat backslash (k - 1) ++ [LF]
     else repeat backslash k ++ ["n"%char])
    ++ pass_n s.
Proof.
  intros Hk. rewrite <- _newline_replacer_run.
  apply (@sub_run_matched {| re.literal := py "n" |} _ "n"%char
           [] eq_refl n_no_backslash k s Hk n_no_backslash).
Qed.
Lemma pass_r_matched (k : nat) (s : str) :
  0 < k ->
  pass_r (repeat backslash k ++ "r"%char :: s)
  = (if Nat.odd k then repeat backslash (k - 1) ++ [LF]
     else repeat backslash k ++ ["r"%char])
    ++ pass_r s.
Proof.
  intros Hk. rewrite <- _newline_replacer_run.
  apply (@sub_run_matched {| re.literal := py "r" |} _ "r"%char
           [] eq_refl r_no_backslash k s Hk r_no_backslash).
Qed.

(** The one-pass reference on runs. *)

Lemma unescape_from_skip (n : nat) (s : str) :
  unescape_from n s = unescape_newlines (skipn n s).
Proof.
  revert n; induction s as [|c s IH]; intros [|n]; try reflexivity.
  simpl. apply IH.
Qed.

Lemma unescape_plain (c : ascii) (s : str) :
  c <> backslash -> unescape_newlines (c :: s) = c :: unescape_newlines s.
Proof.
  intros Hc. unfold unescape_newlines. cbn [unescape_from].
  rewrite (eqb_backslash_false Hc). reflexivity.
Qed.

Lemma unescape_run (k : nat) (s : str) :
  0 < k -> no_leading_backslash s ->
  unescape_newlines (repeat backslash k ++ s)
  = match newline_escape s with
    | Some len =>
        if Nat.odd k
        then repeat backslash (k - 1) ++ LF :: unescape_newlines (skipn len s)
        else repeat backslash k ++ unescape_newlines s
    | None => repeat backslash k ++ unescape_newlines s
    end.
Proof.
  intros Hk Hs. destruct k as [|k]; [lia |].
  unfold unescape_newlines at 1. cbn [repeat app unescape_from].
  rewrite Ascii.eqb_refl.
  change (backslash :: repeat backslash k ++ s)
    with (repeat backslash (S k) ++ s).
  rewrite count_backslashes_run by exact Hs. rewrite skipn_run.
  rewrite !unescape_from_skip.
  replace (S k - 1) with k by lia.
  rewrite skipn_run.
  destruct (newline_escape s) as [len|]; [|reflexivity].
  rewrite unescape_from_skip.
  replace (S k + len - 1) with (k + len) by lia.
  rewrite skipn_run_more. reflexivity.
Qed.

Lemma run_decompose (s : str) :
  exists k rest, s = repeat backslash k ++ rest /\ no_leading_backslash rest.
Proof.
  induction s as [|c s (k & rest & -> & Hrest)].
  - exists 0, []. split; [reflexivity | exact I].
  - destruct (ascii_dec c backslash) as [-> | Hc].
    + exists (S k), rest. split; [reflexivity | exact Hrest].
    + exists 0, (c :: repeat backslash k ++ rest).
      split; [reflexivity | exact Hc].
Qed.

Lemma startswith_head_differs (a b : ascii) (s p : str) :
  b <> a -> startswith (b :: s) (a :: p) = false.
Proof.
  intros Hne. cbn [startswith].
  rewrite (proj2 (Ascii.eqb_neq a b)); [reflexivity | congruence].
Qed.

Lemma newline_escape_other (c : ascii) (s : str) :
  c <> "r"%char -> c <> "n"%char -> newline_escape (c :: s) = None.
Proof.
  intros Hr Hn. unfold newline_escape, py. cbn [list_ascii_of_string].
  rewrite !startswith_head_differs by assumption. reflexivity.
Qed.

Lemma newline_escape_n (s : str) : newline_escape ("n"%char :: s) = Some 1.
Proof. reflexivity. Qed.

Lemma newline_escape_r (s : str) :
  newline_escape ("r"%char :: s)
  = if startswith ("r"%char :: s) (py "r\n") then Some 3 else Some 1.
Proof.
  unfold newline_escape.
  destruct (startswith ("r"%char :: s) (py "r\n")); reflexivity.
Qed.

Lemma startswith_rn (s : str) :
  startswith ("r"%char :: s) (py "r\n") = true ->
  exists rest, s = backslash :: "n"%char :: rest.
Proof.
  intros H. apply startswith_iff in H. destruct H as [rest E].
  injection E as ->. exists rest. reflexivity.
Qed.

(** Side conditions of the lemmas on runs: a character is no backslash, a
    text does not begin with the literal text of a pattern. *)
Create HintDb runs.
#[local] Hint Resolve r_no_backslash n_no_backslash LF_no_backslash : runs.
#[local] Hint Extern 3 (startswith (_ :: _) _ = false) =>
  apply startswith_head_differs : runs.
#[local] Hint Extern 1 (no_leading_backslash _) => exact I : runs.
#[local] Hint Extern 1 (no_leading_backslash (_ :: _)) =>
  cbn [no_leading_backslash] : runs.
#[local] Hint Extern 2 (startswith _ _ = false) => reflexivity : runs.
#[local] Hint Extern 2 (0 < _) => lia : runs.

Ltac copied :=
  rewrite ?pass_rn_copied by auto with runs;
  rewrite ?pass_rn_plain by auto with runs;
  rewrite ?pass_n_copied by auto with runs;
  rewrite ?pass_n_plain by auto with runs;
  rewrite ?pass_r_copied by auto with runs;
  rewrite ?pass_r_plain by auto with runs.

Lemma passes_refine_unescape_bounded (n : nat) :
  forall s, length s <= n ->
  pass_r (pass_n (pass_rn s)) = unescape_newlines s.
Proof.
  induction n as [|n IH]; intros s Hlen.
  - destruct s; [reflexivity | simpl in Hlen; lia].
  - destruct (run_decompose s) as (k & rest & -> & Hrest).
    rewrite length_app, repeat_length in Hlen.
    destruct k as [|k].
    + (* no run at the start *)
      cbn [repeat app]. destruct rest as [|c t]; [reflexivity |].
      cbn in Hrest, Hlen.
      rewrite pass_rn_plain, pass_n_plain, pass_r_plain, unescape_plain
        by exact Hrest.
      rewrite IH by lia. reflexivity.
    + rewrite unescape_run by (lia || exact Hrest).
      destruct rest as [|c t]; [copied; reflexivity |].
      cbn in Hrest. cbn [length] in Hlen.
      destruct (ascii_dec c "r"%char) as [-> | Hr];
        [| destruct (ascii_dec c "n"%char) as [-> | Hn]].
      * rewrite newline_escape_r.
        destruct (startswith ("r"%char :: t) (py "r\n")) eqn:Hrn.
        -- (* the run is followed by r, a backslash and n *)
           destruct (startswith_rn _ Hrn) as [t' ->].
           cbn [length] in Hlen.
           rewrite pass_rn_matched by lia.
           destruct (Nat.odd (S k)) eqn:Hodd; rewrite <- !app_assoc; cbn [app].
           ++ copied. cbn [skipn]. rewrite IH by lia. reflexivity.
           ++ rewrite pass_n_copied, pass_n_plain by auto with runs.
              change (backslash :: "n"%char :: pass_rn t')
                with (repeat backslash 1 ++ "n"%char :: pass_rn t').
              rewrite pass_n_matched by lia.
              change (if Nat.odd 1 then repeat backslash (1 - 1) ++ [LF]
                      else repeat backslash 1 ++ ["n"%char]) with [LF].
              cbn [app].
              rewrite pass_r_matched by lia. rewrite Hodd.
              rewrite <- !app_assoc. cbn [app].
              rewrite pass_r_plain by auto with runs.
              rewrite IH by lia.
              rewrite unescape_plain by auto with runs.
              change (backslash :: "n"%char :: t')
                with (repeat backslash 1 ++ "n"%char :: t').
              rewrite (@unescape_run 1) by auto with runs.
              rewrite newline_escape_n. reflexivity.
        -- (* the run is followed by r alone *)
           rewrite pass_rn_copied, pass_rn_plain by auto with runs.
           rewrite pass_n_copied, pass_n_plain by auto with runs.
           rewrite pass_r_matched by lia.
           destruct (Nat.odd (S k)); rewrite <- !app_assoc; cbn [app skipn];
             rewrite IH by lia;
             rewrite ?unescape_plain by auto with runs; reflexivity.
      * (* the run is followed by n *)
        rewrite newline_escape_n.
        rewrite pass_rn_copied, pass_rn_plain by auto with runs.
        rewrite pass_n_matched by lia.
        destruct (Nat.odd (S k)); rewrite <- !app_assoc; cbn [app skipn];
          copied; rewrite IH by lia;
          rewrite ?unescape_plain by auto with runs; reflexivity.
      * (* the run is followed by another character *)
        rewrite newline_escape_other by assumption.
        rewrite pass_rn_copied, pass_rn_plain by auto with runs.
        rewrite pass_n_copied, pass_n_plain by auto with runs.
        rewrite pass_r_copied, pass_r_plain by auto with runs.
        rewrite IH by lia.
        rewrite unescape_plain by exact Hrest. reflexivity.
Qed.

(** The three substitutions of the source amount to the one-pass
    reference. *)
Lemma _unescape_refines (item : str) :
  DocumentationController._unescape_newlines_and_handle_escaped_backslashes item
  = unescape_newlines item.
Proof.
  rewrite _unescape_passes.
  apply (passes_refine_unescape_bounded (n := length item)). lia.
Qed.

(** ** Escaping the documentation *)

Lemma replace_from_skip (old new : str) (n : nat) (s : str) :
  replace_from old new n s = replace old new (skipn n s).
Proof.
  revert n; induction s as [|c s IH]; intros [|n]; try reflexivity.
  simpl. apply IH.
Qed.

Lemma replace_single (x : ascii) (new s : str) :
  replace [x] new s = flat_map (replace_char x new) s.
Proof.
  unfold replace. induction s as [|c s IH]; [reflexivity |].
  cbn [replace_from startswith flat_map length Nat.sub]. unfold replace_char at 1.
  rewrite andb_true_r. destruct (Ascii.eqb x c); rewrite IH; reflexivity.
Qed.

Lemma replace_crlf_nil (new : str) : replace [CR; LF] new [] = [].
Proof. reflexivity. Qed.

Lemma replace_crlf_hit (new s : str) :
  replace [CR; LF] new (CR :: LF :: s) = new ++ replace [CR; LF] new s.
Proof. unfold replace. cbn. reflexivity. Qed.

Lemma replace_crlf_miss (new : str) (c : ascii) (s : str) :
  startswith (c :: s) [CR; LF] = false ->
  replace [CR; LF] new (c :: s) = c :: replace [CR; LF] new s.
Proof.
  intros Hmiss. unfold replace. cbn [replace_from]. rewrite Hmiss. reflexivity.
Qed.

Lemma escape_lone_app (a b : str) :
  escape_lone (a ++ b) = escape_lone a ++ escape_lone b.
Proof.
  unfold escape_lone. rewrite !replace_single, !flat_map_app. reflexivity.
Qed.

Lemma escape_lone_cons (c : ascii) (s : str) :
  escape_lone (c :: s)
  = (if Ascii.eqb c CR then [backslash; "n"%char]
     else if Ascii.eqb c LF then [backslash; "n"%char] else [c])
    ++ escape_lone s.
Proof.
  change (c :: s) with ([c] ++ s). rewrite escape_lone_app. f_equal.
  unfold escape_lone. rewrite !replace_single. cbn [flat_map app].
  unfold replace_char at 2. rewrite (Ascii.eqb_sym LF c).
  destruct (Ascii.eqb c LF) eqn:Hlf.
  - apply Ascii.eqb_eq in Hlf. subst c. reflexivity.
  - cbn [flat_map app]. unfold replace_char. rewrite (Ascii.eqb_sym CR c).
    destruct (Ascii.eqb c CR); reflexivity.
Qed.

Lemma escape_passes (item : str) :
  fold_left (fun item newline => replace newline (py "\n") item)
    [[CR; LF]; [LF]; [CR]] item
  = escape_lone (replace [CR; LF] (py "\n") item).
Proof. reflexivity. Qed.

Lemma escape_passes_refine_bounded (n : nat) :
  forall s, length s <= n ->
  escape_lone (replace [CR; LF] (py "\n") s) = escape_newlines s.
Proof.
  induction n as [|n IH]; intros s Hlen.
  - destruct s; [reflexivity | simpl in Hlen; lia].
  - destruct s as [|c s]; [reflexivity |]. cbn [length] in Hlen.
    destruct (Ascii.eqb c CR) eqn:Hcr.
    + apply Ascii.eqb_eq in Hcr. subst c.
      destruct s as [|d s]; [reflexivity |]. cbn [length] in Hlen.
      destruct (Ascii.eqb d LF) eqn:Hlf.
      * apply Ascii.eqb_eq in Hlf. subst d.
        rewrite replace_crlf_hit, escape_lone_app, IH by lia. reflexivity.
      * rewrite replace_crlf_miss
          by (cbn [startswith]; rewrite (Ascii.eqb_sym LF d), Hlf; reflexivity).
        rewrite escape_lone_cons, IH by (cbn [length]; lia).
        cbn [escape_newlines]. rewrite Ascii.eqb_refl, Hlf. reflexivity.
    + rewrite replace_crlf_miss
        by (cbn [startswith]; rewrite (Ascii.eqb_sym CR c), Hcr; reflexivity).
      rewrite escape_lone_cons, IH by lia.
      cbn [escape_newlines]. rewrite Hcr.
      destruct (Ascii.eqb c LF); reflexivity.
Qed.

Lemma escape_passes_refine (item : str) :
  fold_left (fun item newline => replace newline (py "\n") item)
    [[CR; LF]; [LF]; [CR]] item
  = escape_newlines item.
Proof.
  rewrite escape_passes.
  apply (escape_passes_refine_bounded (n := length item)). lia.
Qed.

(** No line feed and no carriage return is left. *)
Lemma escape_newlines_no_newline_bounded (n : nat) :
  forall s, length s <= n ->
  forall c, In c (escape_newlines s) -> c <> LF /\ c <> CR.
Proof.
  induction n as [|n IH]; intros s Hlen c.
  - destruct s; [intros [] | simpl in Hlen; lia].
  - destruct s as [|a s]; [intros [] |]. cbn [length] in Hlen.
    cbn [escape_newlines].
    destruct (Ascii.eqb a CR) eqn:Hcr.
    + destruct s as [|d s].
      * intros [<- | [<- | []]]; split; discriminate.
      * cbn [length] in Hlen. destruct (Ascii.eqb d LF).
        -- intros [<- | [<- | Hin]]; try (split; discriminate).
           apply (IH s); [lia | exact Hin].
        -- intros [<- | [<- | Hin]]; try (split; discriminate).
           apply (IH (d :: s)); [cbn [length]; lia | exact Hin].
    + destruct (Ascii.eqb a LF) eqn:Hlf.
      * intros [<- | [<- | Hin]]; try (split; discriminate).
        apply (IH s); [lia | exact Hin].
      * intros [<- | Hin].
        -- apply Ascii.eqb_neq in Hcr, Hlf. split; assumption.
        -- apply (IH s); [lia | exact Hin].
Qed.

Lemma lstrip_keeps_last (c : ascii) (s : str) :
  isspace c = false -> exists kept, lstrip (s ++ [c]) = kept ++ [c].
Proof.
  intros Hc. induction s as [|a s [kept IH]]; cbn [app lstrip].
  - rewrite Hc. exists []. reflexivity.
  - destruct (isspace a); [exists kept; exact IH |].
    exists (a :: s). reflexivity.
Qed.

(** Stripping keeps a first character that is not whitespace. *)
Lemma strip_keeps_first (c : ascii) (s : str) :
  isspace c = false -> exists kept, strip (c :: s) = c :: kept.
Proof.
  intros Hc. unfold strip, rstrip. cbn [lstrip]. rewrite Hc. cbn [rev].
  destruct (lstrip_keeps_last c (rev s) Hc) as [kept ->].
  rewrite rev_app_distr. exists (rev kept). reflexivity.
Qed.

Lemma In_lstrip (c : ascii) (s : str) : In c (lstrip s) -> In c s.
Proof.
  induction s as [|a s IH]; [intros [] |]. cbn [lstrip].
  destruct (isspace a); [intros H; right; apply IH, H | intros H; exact H].
Qed.

Lemma In_strip (c : ascii) (s : str) : In c (strip s) -> In c s.
Proof.
  unfold strip, rstrip. intros H. apply In_lstrip.
  apply in_rev in H. apply In_lstrip in H. apply in_rev in H. exact H.
Qed.

Lemma lstrip_idempotent (s : str) : lstrip (lstrip s) = lstrip s.
Proof.
  induction s as [|a s IH]; [reflexivity |]. cbn [lstrip].
  destruct (isspace a) eqn:Ha; [exact IH |]. cbn [lstrip]. rewrite Ha.
  reflexivity.
Qed.

Lemma rstrip_idempotent (s : str) : rstrip (rstrip s) = rstrip s.
Proof.
  unfold rstrip. rewrite rev_involutive, lstrip_idempotent. reflexivity.
Qed.

Lemma lstrip_cases (s : str) :
  lstrip s = [] \/ exists c rest, lstrip s = c :: rest /\ isspace c = false.
Proof.
  induction s as [|a s IH]; [left; reflexivity |]. cbn [lstrip].
  destruct (isspace a) eqn:Ha; [exact IH |].
  right. exists a, s. split; [reflexivity | exact Ha].
Qed.

Lemma rstrip_keeps_first (c : ascii) (s : str) :
  isspace c = false -> exists kept, rstrip (c :: s) = c :: kept.
Proof.
  intros Hc. unfold rstrip. cbn [rev].
  destruct (lstrip_keeps_last c (rev s) Hc) as [kept ->].
  rewrite rev_app_distr. exists (rev kept). reflexivity.
Qed.

Lemma strip_idempotent (s : str) : strip (strip s) = strip s.
Proof.
  unfold strip.
  destruct (lstrip_cases s) as [E | (c & rest & E & Hc)]; rewrite E;
    [reflexivity |].
  destruct (rstrip_keeps_first c rest Hc) as [kept E'].
  rewrite E'. cbn [lstrip]. rewrite Hc, <- E'. apply rstrip_idempotent.
Qed.

Lemma lstrip_app_space (s : str) (c : ascii) :
  isspace c = true ->
  lstrip (s ++ [c]) = match lstrip s with
                      | [] => []
                      | _ => lstrip s ++ [c]
                      end.
Proof.
  intros Hc. induction s as [|a s IH]; cbn [app lstrip].
  - rewrite Hc. reflexivity.
  - destruct (isspace a); [exact IH | reflexivity].
Qed.

Lemma rstrip_app_space (s : str) (c : ascii) :
  isspace c = true -> rstrip (s ++ [c]) = rstrip s.
Proof.
  intros Hc. unfold rstrip. rewrite rev_app_distr. cbn [rev app lstrip].
  rewrite Hc. reflexivity.
Qed.

Lemma strip_app_space (s : str) (c : ascii) :
  isspace c = true -> strip (s ++ [c]) = strip s.
Proof.
  intros Hc. unfold strip. rewrite lstrip_app_space by exact Hc.
  destruct (lstrip s) eqn:E; [reflexivity |].
  rewrite <- E. apply rstrip_app_space, Hc.
Qed.

Lemma strip_cons_space (s : str) (c : ascii) :
  isspace c = true -> strip (c :: s) = strip s.
Proof. intros Hc. unfold strip. cbn [lstrip]. rewrite Hc. reflexivity. Qed.

(** [isspace] holds of the whitespace characters and of no other. *)
Lemma isspace_is_whitespace (c : ascii) : isspace c = is_whitespace c.
Proof.
  destruct c as [b0 b1 b2 b3 b4 b5 b6 b7].
  destruct b0, b1, b2, b3, b4, b5, b6, b7; reflexivity.
Qed.

(** Stripped, a text begins with a hash when its first character that is
    not whitespace is a hash. *)
Lemma startswith_strip_hash (s : str) :
  startswith (strip s) [hash_sign] = hash_after_whitespace s.
Proof.
  induction s as [|c s IH]; [reflexivity |].
  cbn [hash_after_whitespace]. rewrite <- isspace_is_whitespace.
  destruct (isspace c) eqn:Hc.
  - rewrite strip_cons_space by exact Hc. rewrite IH.
    destruct (Ascii.eqb c hash_sign) eqn:Hhash; [|reflexivity].
    apply Ascii.eqb_eq in Hhash. subst c. discriminate.
  - destruct (strip_keeps_first c s Hc) as [kept ->].
    cbn [startswith]. rewrite andb_true_r, andb_false_l, orb_false_r.
    apply Ascii.eqb_sym.
Qed.

(** After [set_value] the record holds the parsed input, whether the call
    wrote it or found it there. *)
Lemma set_value_stores {U : Utils} (k : controller_class) (v : str)
    (s : controller (record k)) :
  stored k (_data (exec (set_value k v) s)) = parsed k v.
Proof.
  rewrite set_value_unfold.
  destruct (_changed k v (_data s)) eqn:Hc.
  - apply _set_stores.
  - symmetry. apply _changed_false_iff, Hc.
Qed.

(** C5 (amended).  The editable value is the stored value read once from
    left to right: a character that is not a backslash is copied; a run of
    [k] backslashes followed by the letter [r], a backslash and [n], or by
    [n], or by [r], is replaced together with these letters by [k - 1]
    backslashes and a line feed when [k] is odd; when [k] is even the run
    and the letter after it are copied and reading goes on after that
    letter, so that after an even run and [r] a following backslash and [n]
    still become a line feed. *)
Theorem editable_value_unescapes_odd_runs (item : str) (comment : option str)
    (owner : Parent.t) :
  _get_editable_value
    {| _data := {| Scalar.value := Some item; Scalar.comment := comment |};
       _parent := owner |}
  = Some (unescape_newlines item)
  /\ unescape_newlines [] = []
  /\ (forall c rest,
        c <> backslash ->
        unescape_newlines (c :: rest) = c :: unescape_newlines rest)
  /\ (forall k c rest,
        c <> backslash ->
        unescape_newlines (repeat backslash (S k) ++ c :: rest)
        = match newline_escape (c :: rest) with
          | Some len =>
              if Nat.odd (S k)
              then repeat backslash k
                   ++ LF :: unescape_newlines (skipn len (c :: rest))
              else repeat backslash (S k) ++ c :: unescape_newlines rest
          | None => repeat backslash (S k) ++ c :: unescape_newlines rest
          end)
  /\ (forall k, unescape_newlines (repeat backslash k) = repeat backslash k).
Proof.
  split; [|split; [|split; [|split]]].
  - unfold _get_editable_value. cbn [_data Scalar.value option_map].
    rewrite _unescape_refines. reflexivity.
  - reflexivity.
  - intros c rest Hc. apply unescape_plain, Hc.
  - intros k c rest Hc.
    rewrite unescape_run by (lia || exact Hc).
    replace (S k - 1) with k by lia.
    rewrite (unescape_plain rest Hc). reflexivity.
  - intros [|k]; [reflexivity |].
    rewrite <- (app_nil_r (repeat backslash (S k))) at 1.
    rewrite unescape_run by (lia || exact I). cbn [newline_escape].
    rewrite app_nil_r. reflexivity.
Qed.

Lemma editable_value_unescapes_odd_runs_witness :
  "n"%char <> backslash
  /\ unescape_newlines (repeat backslash 3 ++ "n"%char :: py "b")
     = [backslash; backslash; LF; "b"%char].
Proof.
  split; [discriminate |].
  apply (editable_value_unescapes_odd_runs [] None {| Parent.calls := [] |}).
  discriminate.
Defined.

(** The examples of the specification: one backslash before [n] gives a
    line feed, two backslashes leave the text as it is. *)
Example editable_value_one_backslash :
  DocumentationController._unescape_newlines_and_handle_escaped_backslashes
    (py "a\nb")
  = ["a"%char; LF; "b"%char].
Proof. reflexivity. Qed.

Example editable_value_two_backslashes :
  DocumentationController._unescape_newlines_and_handle_escaped_backslashes
    (py "a\\nb")
  = py "a\\nb".
Proof. reflexivity. Qed.

(** C5, as stated, fails for an even run followed by [r], a backslash and
    [n]: the occurrence is not left unchanged, its last two characters
    become a line feed. *)
Lemma editable_value_even_run_before_rn :
  _get_editable_value
    {| _data := {| Scalar.value := Some (py "\\r\n"); Scalar.comment := None |};
       _parent := {| Parent.calls := [] |} |}
  = Some [backslash; backslash; "r"%char; LF].
Proof. reflexivity. Qed.

(** C6.  Assigning the editable value stores the text in which every
    carriage return with the line feed after it, every other line feed and
    every other carriage return is replaced by a backslash and [n], as the
    three replacements in this order do, so that no line break is left;
    one backslash is put in front exactly when the first character of
    that text that is not whitespace is a hash.  A text that begins with a
    hash is stored beginning with a backslash and the hash, and so is a
    text that has spaces or tabs before the hash, after the backslash. *)
Theorem editable_value_assignment_escapes {U : Utils} (text : str)
    (s : controller Scalar.t) :
  Scalar.value (_data (exec (_set_editable_value text) s))
  = Some (if hash_after_whitespace (escape_newlines text)
          then backslash :: escape_newlines text
          else escape_newlines text)
  /\ escape_newlines text
     = replace [CR] (py "\n")
         (replace [LF] (py "\n") (replace [CR; LF] (py "\n") text))
  /\ (forall c, In c (escape_newlines text) -> c <> LF /\ c <> CR)
  /\ (forall rest,
        text = hash_sign :: rest ->
        Scalar.value (_data (exec (_set_editable_value text) s))
        = Some (backslash :: hash_sign :: escape_newlines rest))
  /\ (forall blanks rest,
        text = blanks ++ hash_sign :: rest ->
        Forall (fun c => c = " "%char \/ c = "009"%char) blanks ->
        Scalar.value (_data (exec (_set_editable_value text) s))
        = Some (backslash :: blanks ++ hash_sign :: escape_newlines rest)).
Proof.
  assert (Hstored :
    Scalar.value (_data (exec (_set_editable_value text) s))
    = Some (if hash_after_whitespace (escape_newlines text)
            then backslash :: escape_newlines text
            else escape_newlines text)).
  { unfold _set_editable_value.
    rewrite (set_value_stores Documentation_). cbn [parsed]. f_equal.
    unfold DocumentationController._escape_newlines_and_leading_hash.
    rewrite escape_passes_refine, startswith_strip_hash. reflexivity. }
  assert (Hblanks : forall blanks rest,
    Forall (fun c => c = " "%char \/ c = "009"%char) blanks ->
    escape_newlines (blanks ++ hash_sign :: rest)
    = blanks ++ hash_sign :: escape_newlines rest
    /\ hash_after_whitespace (blanks ++ hash_sign :: escape_newlines rest)
       = true).
  { intros blanks rest Hall. induction Hall as [|c blanks Hc _ [IH1 IH2]].
    - split; reflexivity.
    - cbn [app hash_after_whitespace]. rewrite IH2.
      destruct Hc as [-> | ->]; cbn [escape_newlines];
        (split; [cbn; rewrite IH1; reflexivity | reflexivity]). }
  split; [exact Hstored |]. split; [|split; [|split]].
  - rewrite <- escape_passes_refine. reflexivity.
  - apply (escape_newlines_no_newline_bounded (n := length text)). lia.
  - intros rest ->. rewrite Hstored. reflexivity.
  - intros blanks rest -> Hall. rewrite Hstored.
    destruct (Hblanks blanks rest Hall) as [-> ->]. reflexivity.
Qed.

Lemma editable_value_assignment_escapes_witness :
  py "  #tag" = py "  " ++ hash_sign :: py "tag"
  /\ Forall (fun c => c = " "%char \/ c = "009"%char) (py "  ")
  /\ Scalar.value
       (_data
          (exec (_set_editable_value (U := utils_model.utils) (py "  #tag"))
             {| _data := {| Scalar.value := None; Scalar.comment := None |};
                _parent := {| Parent.calls := [] |} |}))
     = Some (backslash :: py "  " ++ hash_sign :: escape_newlines (py "tag")).
Proof.
  assert (Hall : Forall (fun c => c = " "%char \/ c = "009"%char) (py "  ")).
  { repeat constructor. }
  split; [reflexivity |]. split; [exact Hall |].
  apply (editable_value_assignment_escapes (U := utils_model.utils)
           (py "  #tag"));
    [reflexivity | exact Hall].
Defined.

(** Whitespace before the hash is whatever a text counts as whitespace:
    after a no-break space or a unit separator the hash is guarded too,
    after a letter it is not. *)
Example editable_value_hash_after_whitespace :
  map DocumentationController._escape_newlines_and_leading_hash
    [["160"%char; "#"%char; "a"%char]; ["031"%char; "#"%char; "a"%char];
     py "a#"]
  = [[backslash; "160"%char; "#"%char; "a"%char];
     [backslash; "031"%char; "#"%char; "a"%char];
     py "a#"].
Proof. reflexivity. Qed.

(** * Further properties *)

(** ** Labels and displayed values *)

(** X1.  The label of a setting whose name begins with a bracket is the
    name without its first and its last character, whatever the last
    character is; a lone bracket gives the empty label; any other name is
    its own label. *)
Theorem label_strips_first_and_last (inner : str) (last : ascii) (name : str) :
  _SettingController_more._label (("["%char :: inner) ++ [last]) = inner
  /\ _SettingController_more._label (py "[") = []
  /\ (startswith name (py "[") = false ->
      _SettingController_more._label name = name).
Proof.
  split; [|split].
  - unfold _SettingController_more._label.
    replace (startswith (("["%char :: inner) ++ [last]) (py "[")) with true
      by reflexivity.
    unfold slice, clip. cbn [app length]. rewrite length_app. cbn [length].
    destruct (Z.ltb_spec 1 0); [lia |].
    destruct (Z.ltb_spec (-1) 0); [|lia].
    replace (Nat.min (Z.to_nat 1) (S (length inner + 1))) with 1 by lia.
    replace (Z.to_nat (Z.max 0 (Z.of_nat (S (length inner + 1)) + -1)) - 1)
      with (length inner) by lia.
    cbn [skipn]. rewrite firstn_app, firstn_all, Nat.sub_diag. cbn [firstn].
    apply app_nil_r.
  - reflexivity.
  - intros Hno. unfold _SettingController_more._label. rewrite Hno.
    reflexivity.
Qed.

Lemma label_strips_first_and_last_witness :
  startswith (py "Documentation") (py "[") = false
  /\ _SettingController_more._label (py "Documentation") = py "Documentation".
Proof.
  split; [reflexivity |].
  apply (label_strips_first_and_last [] "]"%char (py "Documentation")).
  reflexivity.
Defined.

Lemma escape_pipes_cons (c : ascii) (v : str) :
  escape_pipes (c :: v)
  = if Ascii.eqb pipe c then backslash :: pipe :: escape_pipes v
    else c :: escape_pipes v.
Proof.
  unfold escape_pipes. rewrite !replace_single. cbn [flat_map].
  unfold replace_char at 1. destruct (Ascii.eqb pipe c); reflexivity.
Qed.

Lemma after_token_no_pipe (rest more : str) :
  after_token rest -> rest <> pipe :: more.
Proof. intros [-> | [m ->]]; discriminate. Qed.

(** An escaped token, with what comes after it, does not begin with a
    pipe. *)
Lemma escape_pipes_no_bare_pipe (v rest more : str) :
  after_token rest -> escape_pipes v ++ rest <> pipe :: more.
Proof.
  intros Hrest. destruct v as [|c v]; [apply after_token_no_pipe, Hrest |].
  rewrite escape_pipes_cons. destruct (Ascii.eqb pipe c) eqn:Hc.
  - discriminate.
  - cbn [app]. intros E. injection E as E _. subst c.
    rewrite Ascii.eqb_refl in Hc. discriminate.
Qed.

(** An escaped token cannot be mistaken for the end of another one. *)
Lemma escape_pipes_not_after_token (c : ascii) (w rest rest' : str) :
  after_token rest -> after_token rest' ->
  rest <> escape_pipes (c :: w) ++ rest'.
Proof.
  intros [-> | [more ->]] Hrest'; rewrite escape_pipes_cons;
    destruct (Ascii.eqb pipe c) eqn:Hc; try discriminate.
  cbn [app]. intros E. injection E as _ E. symmetry in E.
  revert E. apply escape_pipes_no_bare_pipe, Hrest'.
Qed.

Lemma escape_pipes_cancel (v : str) :
  forall w rest rest',
    after_token rest -> after_token rest' ->
    escape_pipes v ++ rest = escape_pipes w ++ rest' ->
    v = w /\ rest = rest'.
Proof.
  induction v as [|c v IH]; intros [|d w] rest rest' Hr Hr' E.
  - split; [reflexivity | exact E].
  - exfalso. revert E. apply escape_pipes_not_after_token; assumption.
  - exfalso. symmetry in E. revert E.
    apply escape_pipes_not_after_token; assumption.
  - rewrite !escape_pipes_cons in E.
    destruct (Ascii.eqb pipe c) eqn:Hc; destruct (Ascii.eqb pipe d) eqn:Hd;
      cbn [app] in E.
    + apply Ascii.eqb_eq in Hc, Hd. subst c d.
      injection E as E. destruct (IH w rest rest' Hr Hr' E) as [-> ->].
      split; reflexivity.
    + exfalso. injection E as _ E.
      revert E. apply not_eq_sym, escape_pipes_no_bare_pipe, Hr'.
    + exfalso. injection E as _ E. symmetry in E.
      revert E. apply not_eq_sym, escape_pipes_no_bare_pipe, Hr.
    + injection E as -> E. destruct (IH w rest rest' Hr Hr' E) as [-> ->].
      split; reflexivity.
Qed.

Lemma escape_pipes_injective (v w : str) :
  escape_pipes v = escape_pipes w -> v = w.
Proof.
  intros E.
  apply (escape_pipes_cancel v w (rest := []) (rest' := []));
    [left; reflexivity | left; reflexivity |].
  rewrite !app_nil_r. exact E.
Qed.

Lemma escape_pipes_backslash_before_pipe (v : str) :
  forall before after,
    escape_pipes v = before ++ pipe :: after ->
    exists before', before = before' ++ [backslash].
Proof.
  induction v as [|c v IH]; intros before after E.
  - destruct before; discriminate.
  - rewrite escape_pipes_cons in E. destruct (Ascii.eqb pipe c) eqn:Hc.
    + destruct before as [|b [|b' before]].
      * discriminate.
      * injection E as <- _. exists []. reflexivity.
      * injection E as <- <- E. destruct (IH _ _ E) as [before' ->].
        exists (backslash :: pipe :: before'). reflexivity.
    + destruct before as [|b before].
      * injection E as E _. subst c. rewrite Ascii.eqb_refl in Hc.
        discriminate.
      * injection E as <- E. destruct (IH _ _ E) as [before' ->].
        exists (c :: before'). reflexivity.
Qed.

(** X2.  [_value] leaves out the first entry of the list and gives every
    other entry with each pipe turned into a backslash and the pipe and
    every other character kept, so that it depends on the entries after the
    first only.  The escaped tokens determine the tokens after the marker,
    and in an escaped token every pipe has a backslash in front of it. *)
Theorem value_tokens_escape_pipes_losslessly (as_list as_list' : list str) :
  _SettingController_more._value as_list
  = map (flat_map (fun c => if Ascii.eqb c pipe then [backslash; pipe]
                            else [c]))
      (tl as_list)
  /\ (tl as_list = tl as_list' ->
      _SettingController_more._value as_list
      = _SettingController_more._value as_list')
  /\ (_SettingController_more._value as_list
      = _SettingController_more._value as_list' ->
      tl as_list = tl as_list')
  /\ forall token before after,
       In token (_SettingController_more._value as_list) ->
       token = before ++ pipe :: after ->
       exists before', before = before' ++ [backslash].
Proof.
  split; [|split; [|split]].
  - unfold _SettingController_more._value. apply map_ext. intros v.
    rewrite replace_single. apply flat_map_ext. intros c.
    unfold replace_char. rewrite (Ascii.eqb_sym pipe c). reflexivity.
  - unfold _SettingController_more._value. intros ->. reflexivity.
  - unfold _SettingController_more._value.
    generalize (tl as_list) as l, (tl as_list') as m.
    induction l as [|a l IH]; intros [|b m] E; try discriminate.
    + reflexivity.
    + cbn [map] in E. injection E as Ea El.
      apply (escape_pipes_injective a b) in Ea. subst b.
      rewrite (IH m El). reflexivity.
  - intros token before after Hin E.
    unfold _SettingController_more._value in Hin.
    apply in_map_iff in Hin. destruct Hin as (v & <- & _).
    apply (escape_pipes_backslash_before_pipe v before after E).
Qed.

Lemma value_tokens_escape_pipes_losslessly_witness :
  _SettingController_more._value [py "Force Tags"; py "a|b"; py "c"]
  = [[ "a"%char; backslash; pipe; "b"%char ]; py "c"].
Proof.
  exact (proj1 (value_tokens_escape_pipes_losslessly
                  [py "Force Tags"; py "a|b"; py "c"] [])).
Defined.

Lemma join_cons (sep p : str) (rest : list str) :
  join sep (p :: rest)
  = p ++ match rest with
         | [] => []
         | _ => sep ++ join sep rest
         end.
Proof. destruct rest; [symmetry; apply app_nil_r | reflexivity]. Qed.

Lemma after_token_join (rest : list str) :
  after_token match rest with
              | [] => []
              | _ => py " | " ++ join (py " | ") rest
              end.
Proof.
  destruct rest; [left; reflexivity | right; eexists; reflexivity].
Qed.

Lemma join_escaped_injective (l : list str) :
  forall m, l <> [] -> m <> [] ->
  join (py " | ") (map escape_pipes l) = join (py " | ") (map escape_pipes m) ->
  l = m.
Proof.
  induction l as [|a l IH]; intros [|b m] Hl Hm E; try contradiction.
  cbn [map] in E. rewrite !join_cons in E.
  apply escape_pipes_cancel in E; try apply after_token_join.
  destruct E as [-> E]. f_equal.
  destruct l as [|a' l]; destruct m as [|b' m]; try discriminate.
  - reflexivity.
  - apply IH; try discriminate.
    cbn [map] in E. injection E as E. exact E.
Qed.

(** X3.  The displayed value determines the tokens: two records with at
    least one token after the marker that display the same value hold the
    same tokens. *)
Theorem display_value_determines_tokens (as_list as_list' : list str) :
  tl as_list <> [] -> tl as_list' <> [] ->
  _SettingController_more.display_value as_list
  = _SettingController_more.display_value as_list' ->
  tl as_list = tl as_list'.
Proof.
  intros Hl Hm E. apply join_escaped_injective; assumption.
Qed.

Lemma display_value_determines_tokens_witness :
  tl [py "Arguments"; py "${a}"; py "x | y"] <> []
  /\ tl [py "Arguments"; py "${a}"; py "x | y"]
     = tl [py "[Arguments]"; py "${a}"; py "x | y"].
Proof.
  split; [discriminate |].
  apply (display_value_determines_tokens
           [py "Arguments"; py "${a}"; py "x | y"]
           [py "[Arguments]"; py "${a}"; py "x | y"]);
    [discriminate | discriminate | reflexivity].
Defined.

Lemma join_app_last (sep : str) (l : list str) (p : str) :
  l <> [] -> join sep (l ++ [p]) = join sep l ++ sep ++ p.
Proof.
  induction l as [|a l IH]; intros Hl; [contradiction |].
  destruct l as [|b l]; [reflexivity |].
  change ((a :: b :: l) ++ [p]) with (a :: (b :: l) ++ [p]).
  rewrite (join_cons sep a ((b :: l) ++ [p])).
  rewrite IH by discriminate. cbn [app].
  rewrite (join_cons sep a (b :: l)). rewrite <- !app_assoc. reflexivity.
Qed.

(** X4.  Without a comment, [value] is the displayed value.  With a
    comment, [value] leaves out the last token: for a record whose list ends
    with one more token it is the displayed value of the list without that
    token, and the displayed value is [value], the separator and the escaped
    last token when a token is left.  With a comment and no token after the
    marker, the [pop] fails. *)
Theorem value_leaves_out_the_comment (marker : str) (tokens : list str)
    (last : str) :
  _SettingController_more.value (marker :: tokens) false
  = Some (_SettingController_more.display_value (marker :: tokens))
  /\ _SettingController_more.value (marker :: tokens ++ [last]) true
     = Some (_SettingController_more.display_value (marker :: tokens))
  /\ (tokens <> [] ->
      _SettingController_more.display_value (marker :: tokens ++ [last])
      = _SettingController_more.display_value (marker :: tokens)
        ++ py " | " ++ escape_pipes last)
  /\ _SettingController_more.value [marker] true = None
  /\ _SettingController_more.value [] true = None.
Proof.
  split; [reflexivity |]. split; [|split; [|split; reflexivity]].
  - unfold _SettingController_more.value, _SettingController_more.display_value,
      _SettingController_more._value, pop.
    cbn [tl]. rewrite map_app. cbn [map].
    destruct (map (replace [pipe] [backslash; pipe]) tokens ++
              [replace [pipe] [backslash; pipe] last]) eqn:E.
    + destruct (map _ tokens); discriminate.
    + rewrite <- E, removelast_last. reflexivity.
  - intros Hne.
    unfold _SettingController_more.display_value,
      _SettingController_more._value.
    cbn [tl]. rewrite map_app. cbn [map].
    apply join_app_last. destruct tokens; [contradiction | discriminate].
Qed.

Lemma value_leaves_out_the_comment_witness :
  [py "a|b"] <> []
  /\ _SettingController_more.display_value
       (py "Force Tags" :: [py "a|b"] ++ [py "# why"])
     = _SettingController_more.display_value (py "Force Tags" :: [py "a|b"])
       ++ py " | " ++ escape_pipes (py "# why").
Proof.
  split; [discriminate |].
  apply (value_leaves_out_the_comment (py "Force Tags") [py "a|b"] (py "# why")).
  discriminate.
Defined.

(** ** Timeouts *)

Lemma split_once_without (sep : ascii) (s : str) :
  ~ In sep s -> split_once sep s = [s].
Proof.
  induction s as [|c s IH]; intros Hno; [reflexivity |].
  cbn [split_once]. destruct (Ascii.eqb c sep) eqn:Hc.
  - apply Ascii.eqb_eq in Hc. subst c. exfalso. apply Hno. left. reflexivity.
  - rewrite IH; [reflexivity |]. intros Hin. apply Hno. right. exact Hin.
Qed.

Lemma split_once_at (sep : ascii) (before after : str) :
  ~ In sep before ->
  split_once sep (before ++ sep :: after) = [before; after].
Proof.
  induction before as [|c before IH]; intros Hno; cbn [app split_once].
  - rewrite Ascii.eqb_refl. reflexivity.
  - destruct (Ascii.eqb c sep) eqn:Hc.
    + apply Ascii.eqb_eq in Hc. subst c. exfalso. apply Hno. left. reflexivity.
    + rewrite IH; [reflexivity |]. intros Hin. apply Hno. right. exact Hin.
Qed.

(** What [split_once] returns: the whole text when it holds no separator,
    and otherwise the text before the first separator and the text after
    it. *)
Lemma split_once_cases (sep : ascii) (s : str) :
  (~ In sep s /\ split_once sep s = [s])
  \/ exists before after,
       s = before ++ sep :: after /\ ~ In sep before
       /\ split_once sep s = [before; after].
Proof.
  induction s as [|c s IH].
  - left. split; [intros [] | reflexivity].
  - destruct (Ascii.eqb c sep) eqn:Hc.
    + apply Ascii.eqb_eq in Hc. subst c. right. exists [], s.
      split; [reflexivity | split; [intros [] |]].
      cbn [split_once]. rewrite Ascii.eqb_refl. reflexivity.
    + assert (Hne : c <> sep) by (apply Ascii.eqb_neq, Hc).
      destruct IH as [[Hno E] | (before & after & -> & Hno & E)].
      * left. split.
        -- intros [H | H]; [congruence | exact (Hno H)].
        -- cbn [split_once]. rewrite Hc, E. reflexivity.
      * right. exists (c :: before), after.
        split; [reflexivity | split].
        -- intros [H | H]; [congruence | exact (Hno H)].
        -- cbn [split_once]. rewrite Hc, E. reflexivity.
Qed.

Lemma _parse_formatted (val msg : str) :
  strip val = val -> strip msg = msg -> ~ In pipe val ->
  TimeoutController._parse (val ++ py " | " ++ msg) = (val, msg).
Proof.
  intros Hval Hmsg Hno. unfold TimeoutController._parse.
  change (val ++ py " | " ++ msg)
    with (val ++ " "%char :: pipe :: " "%char :: msg).
  replace (val ++ " "%char :: pipe :: " "%char :: msg)
    with ((val ++ [" "%char]) ++ pipe :: " "%char :: msg)
    by (rewrite <- app_assoc; reflexivity).
  rewrite split_once_at.
  - rewrite strip_app_space, strip_cons_space, Hval, Hmsg by reflexivity.
    reflexivity.
  - intros Hin. apply in_app_or in Hin. destruct Hin as [H | [H | []]].
    + exact (Hno H).
    + discriminate.
Qed.

Lemma lstrip_split (s : str) :
  exists ws, s = ws ++ lstrip s /\ forallb is_whitespace ws = true.
Proof.
  induction s as [|c s (ws & E & Hws)]; [exists []; split; reflexivity |].
  cbn [lstrip]. destruct (isspace c) eqn:Hc.
  - exists (c :: ws). split; [cbn [app]; rewrite <- E; reflexivity |].
    cbn [forallb]. rewrite <- isspace_is_whitespace, Hc. exact Hws.
  - exists []. split; reflexivity.
Qed.

Lemma rstrip_split (s : str) :
  exists ws, s = rstrip s ++ ws /\ forallb is_whitespace ws = true.
Proof.
  unfold rstrip. destruct (lstrip_split (rev s)) as (ws & E & Hws).
  exists (rev ws). split.
  - rewrite <- rev_app_distr, <- E, rev_involutive. reflexivity.
  - apply forallb_forall. intros c Hin. apply in_rev in Hin.
    exact (proj1 (forallb_forall _ _) Hws c Hin).
Qed.

Lemma lstrip_head (s : str) (c : ascii) (rest : str) :
  lstrip s = c :: rest -> is_whitespace c = false.
Proof.
  intros E. rewrite <- isspace_is_whitespace.
  destruct (lstrip_cases s) as [E' | (c' & rest' & E' & Hc)];
    rewrite E' in E; [discriminate |].
  injection E as <- _. exact Hc.
Qed.

Lemma rstrip_last (s front : str) (c : ascii) :
  rstrip s = front ++ [c] -> is_whitespace c = false.
Proof.
  unfold rstrip. intros E. apply (f_equal (@rev ascii)) in E.
  rewrite rev_involutive, rev_app_distr in E. cbn [rev app] in E.
  exact (lstrip_head (rev s) E).
Qed.

(** [strip] takes the whitespace off the two ends and nothing else. *)
Lemma strip_trimmed (s : str) : trimmed s (strip s).
Proof.
  destruct (lstrip_split s) as (before & E1 & Hbefore).
  destruct (rstrip_split (lstrip s)) as (after & E2 & Hafter).
  exists before, after. fold (strip s) in E2.
  split; [rewrite <- E2; exact E1 |].
  split; [exact Hbefore |]. split; [exact Hafter |]. split.
  - intros c rest E. unfold strip in E.
    destruct (lstrip_cases s) as [E' | (c' & rest' & E' & Hc)];
      rewrite E' in E; [discriminate |].
    destruct (rstrip_keeps_first c' rest' Hc) as [kept E''].
    rewrite E'' in E. injection E as <- _.
    rewrite <- isspace_is_whitespace. exact Hc.
  - intros front c E. unfold strip in E. eapply rstrip_last. exact E.
Qed.

(** X5.  The timeout controller splits its input at the first pipe only:
    the duration is the text before the first pipe and the message the
    whole text after it, each without the whitespace at its two ends; an
    input without a pipe is the duration and gives the empty message.  The
    duration it parses never holds a pipe.  Writing a parsed duration and
    message as duration, separator, message and parsing again gives them
    back, and so does writing any stripped, pipe-free duration with any
    stripped message, pipes in the message included. *)
Theorem timeout_parse_round_trip (value val msg : str) :
  (forall before after,
     value = before ++ pipe :: after -> ~ In pipe before ->
     trimmed before (fst (TimeoutController._parse value))
     /\ trimmed after (snd (TimeoutController._parse value)))
  /\ (~ In pipe value ->
      trimmed value (fst (TimeoutController._parse value))
      /\ snd (TimeoutController._parse value) = [])
  /\ ~ In pipe (fst (TimeoutController._parse value))
  /\ strip (fst (TimeoutController._parse value))
     = fst (TimeoutController._parse value)
  /\ strip (snd (TimeoutController._parse value))
     = snd (TimeoutController._parse value)
  /\ (~ In pipe value -> TimeoutController._parse value = (strip value, []))
  /\ TimeoutController._parse
       (fst (TimeoutController._parse value) ++ py " | "
        ++ snd (TimeoutController._parse value))
     = TimeoutController._parse value
  /\ (strip val = val -> strip msg = msg -> ~ In pipe val ->
      TimeoutController._parse (val ++ py " | " ++ msg) = (val, msg)).
Proof.
  assert (Hfst : ~ In pipe (fst (TimeoutController._parse value))).
  { unfold TimeoutController._parse.
    destruct (split_once_cases pipe value)
      as [[Hno ->] | (before & after & _ & Hno & ->)]; cbn [fst];
      intros Hin; apply In_strip in Hin; exact (Hno Hin). }
  assert (Hs1 : strip (fst (TimeoutController._parse value))
                = fst (TimeoutController._parse value)).
  { unfold TimeoutController._parse.
    destruct (split_once_cases pipe value)
      as [[_ ->] | (before & after & _ & _ & ->)]; cbn [fst];
      apply strip_idempotent. }
  assert (Hs2 : strip (snd (TimeoutController._parse value))
                = snd (TimeoutController._parse value)).
  { unfold TimeoutController._parse.
    destruct (split_once_cases pipe value)
      as [[_ ->] | (before & after & _ & _ & ->)]; cbn [snd];
      [reflexivity | apply strip_idempotent]. }
  assert (Hnone : ~ In pipe value ->
                  TimeoutController._parse value = (strip value, [])).
  { intros Hno. unfold TimeoutController._parse.
    rewrite split_once_without by exact Hno. reflexivity. }
  split; [|split].
  - intros before after -> Hno. unfold TimeoutController._parse.
    rewrite split_once_at by exact Hno. cbn [fst snd].
    split; apply strip_trimmed.
  - intros Hno. rewrite (Hnone Hno). cbn [fst snd].
    split; [apply strip_trimmed | reflexivity].
  - split; [exact Hfst |]. split; [exact Hs1 |]. split; [exact Hs2 |].
    split; [exact Hnone |]. split.
    + rewrite _parse_formatted by assumption.
      destruct (TimeoutController._parse value). reflexivity.
    + apply _parse_formatted.
Qed.

Lemma timeout_parse_round_trip_witness :
  ~ In pipe (py "5s")
  /\ TimeoutController._parse (py "5s" ++ py " | " ++ py "custom | message")
     = (py "5s", py "custom | message").
Proof.
  assert (Hno : ~ In pipe (py "5s")).
  { intros [H | [H | []]]; discriminate. }
  split; [exact Hno |].
  apply (timeout_parse_round_trip [] (py "5s") (py "custom | message"));
    [reflexivity | reflexivity | exact Hno].
Defined.

(** An input without spaces around the pipe, and whitespace that is not a
    space around the duration. *)
Example timeout_parse_examples :
  map TimeoutController._parse
    [py "5s|custom message"; ["160"%char; "1"%char; "s"%char; "031"%char]]
  = [(py "5s", py "custom message"); (py "1s", [])].
Proof. reflexivity. Qed.

(** ** Fixtures *)

(** X6.  [replace_keyword] on a fixture changes the keyword name and
    nothing else in the record, and makes one call on the owner,
    [mark_dirty].  A [set_value] that follows is a no-op exactly when its
    input parses to the new name and the arguments already stored. *)
Theorem fixture_replace_keyword_then_set_value {U : Utils}
    (new_name value : str) (s : controller Fixture.t) :
  FixtureController_more.keyword_name
    (exec (FixtureController.replace_keyword new_name) s)
  = Some new_name
  /\ Fixture.args (_data (exec (FixtureController.replace_keyword new_name) s))
     = Fixture.args (_data s)
  /\ Fixture.comment (_data (exec (FixtureController.replace_keyword new_name) s))
     = Fixture.comment (_data s)
  /\ calls_since s (exec (FixtureController.replace_keyword new_name) s)
     = [Parent.mark_dirty]
  /\ (exec (set_value Fixture_ value)
        (exec (FixtureController.replace_keyword new_name) s)
      = exec (FixtureController.replace_keyword new_name) s
      <-> parsed Fixture_ value = (Some new_name, Fixture.args (_data s))).
Proof.
  split; [reflexivity |]. split; [reflexivity |]. split; [reflexivity |].
  split; [apply calls_since_app; reflexivity |].
  apply (set_value_noop_iff Fixture_).
Qed.

(** ** Tags *)


Lemma length_enumerate {A} (l : list A) : length (enumerate l) = length l.
Proof.
  rewrite enumerate_combine, length_combine, length_seq. apply Nat.min_id.
Qed.


Lemma In_combine_seq {A} (l : list A) :
  forall start i a,
    In (i, a) (combine (seq start (length l)) l) ->
    start <= i /\ nth_error l (i - start) = Some a.
Proof.
  induction l as [|b l IH]; intros start i a; [intros [] |].
  cbn [length seq combine]. intros [E | Hin].
  - injection E as <- <-. rewrite Nat.sub_diag. split; [lia | reflexivity].
  - apply IH in Hin. destruct Hin as [Hle Hnth]. split; [lia |].
    replace (i - start) with (S (i - S start)) by lia. exact Hnth.
Qed.

Lemma In_level_force_tags (obj : entity) (t : tags.t) :
  In t (level_force_tags obj) ->
  tags.cls t = tags.ForcedTag
  /\ tags.controller t = Some (force_tags obj)
  /\ exists i, tags.index t = Some i
               /\ nth_error (level_names obj) i = Some (tags.name t).
Proof.
  unfold level_force_tags, level_names.
  destruct (Sequence.value (_setting_table_force_tags obj)) as [value|];
    [|intros []].
  intros Hin. apply in_map_iff in Hin. destruct Hin as ([i a] & <- & Hin).
  apply In_combine_seq in Hin. destruct Hin as [_ Hnth].
  rewrite Nat.sub_0_r in Hnth.
  split; [reflexivity | split; [reflexivity |]].
  exists i. split; [reflexivity | exact Hnth].
Qed.

Lemma length_level_force_tags (obj : entity) :
  length (level_force_tags obj) = length (level_names obj).
Proof.
  unfold level_force_tags, level_names.
  destruct (Sequence.value (_setting_table_force_tags obj)) as [value|];
    [|reflexivity].
  rewrite length_map, length_combine, length_seq. apply Nat.min_id.
Qed.

(** X8.  A force tags controller yields forced tags only.  Every tag it
    yields belongs to one level of the hierarchy above the controller: it
    carries the force tags controller of that level, and its index is the
    position of its name among the force tags of that level, so that
    indexes start again at every level.  The number of tags yielded is the
    number of force tags of all levels together. *)
Theorem force_tags_iter_points_into_levels (c : ForceTagsController.t) :
  (forall t,
     In t (ForceTagsController.__iter__ c) ->
     tags.cls t = tags.ForcedTag
     /\ exists obj i,
          In obj (ancestors (ForceTagsController.parent c))
          /\ tags.controller t = Some (force_tags obj)
          /\ tags.index t = Some i
          /\ nth_error (level_names obj) i = Some (tags.name t))
  /\ length (ForceTagsController.__iter__ c)
     = list_sum (map (fun obj => length (level_names obj))
                   (ancestors (ForceTagsController.parent c))).
Proof.
  assert (E : ForceTagsController.__iter__ c
              = concat (map level_force_tags
                          (rev (ancestors (ForceTagsController.parent c))))).
  { unfold ForceTagsController.__iter__,
      ForceTagsController._recursive_gather_from.
    destruct (ForceTagsController.parent c) as [obj|]; [|reflexivity].
    rewrite gather_from_entity_levels, app_nil_r. reflexivity. }
  rewrite E. split.
  - intros t Hin. apply in_concat in Hin. destruct Hin as (level & Hlevel & Hin).
    apply in_map_iff in Hlevel. destruct Hlevel as (obj & <- & Hobj).
    apply in_rev in Hobj.
    destruct (In_level_force_tags obj t Hin) as (Hcls & Hctl & i & Hi & Hnth).
    split; [exact Hcls |]. exists obj, i. repeat split; assumption.
  - generalize (ancestors (ForceTagsController.parent c)) as levels.
    intros levels. rewrite length_concat, map_map, map_rev.
    rewrite (map_ext _ _ length_level_force_tags).
    induction (map (fun obj => length (level_names obj)) levels) as [|n l IH];
      [reflexivity |].
    cbn [rev]. rewrite list_sum_app, IH. unfold list_sum. cbn [fold_right].
    lia.
Qed.

Lemma force_tags_iter_points_into_levels_witness :
  In {| tags.cls := tags.ForcedTag; tags.name := py "f2";
        tags.index := Some 0; tags.controller := Some 2 |}
     (ForceTagsController.__iter__
        {| ForceTagsController.self := 2;
           ForceTagsController._tags :=
             {| Sequence.value := Some [py "f2"]; Sequence.comment := None |};
           ForceTagsController.parent :=
             Some (Entity {| Sequence.value := Some [py "f2"];
                             Sequence.comment := None |} 2
                     (Some (Entity {| Sequence.value := Some [py "f1"];
                                      Sequence.comment := None |} 1
                              None))) |})
  /\ tags.cls {| tags.cls := tags.ForcedTag; tags.name := py "f2";
                 tags.index := Some 0; tags.controller := Some 2 |}
     = tags.ForcedTag.
Proof.
  split; [right; left; reflexivity |].
  apply (force_tags_iter_points_into_levels
           {| ForceTagsController.self := 2;
              ForceTagsController._tags :=
                {| Sequence.value := Some [py "f2"];
                   Sequence.comment := None |};
              ForceTagsController.parent :=
                Some (Entity {| Sequence.value := Some [py "f2"];
                                Sequence.comment := None |} 2
                        (Some (Entity {| Sequence.value := Some [py "f1"];
                                         Sequence.comment := None |} 1
                                 None))) |}).
  right; left; reflexivity.
Defined.

(** ** The displayed tags *)

Lemma map_snd_enumerate_from {A} (l : list A) (i : nat) :
  map snd (enumerate_from i l) = l.
Proof.
  revert i; induction l as [|a l IH]; intros i; [reflexivity |].
  cbn [enumerate_from map snd]. rewrite IH. reflexivity.
Qed.

Lemma names_of_level (obj : entity) :
  map tags.name (level_force_tags obj) = level_names obj.
Proof.
  unfold level_force_tags, level_names.
  destruct (Sequence.value (_setting_table_force_tags obj)) as [value|];
    [|reflexivity].
  rewrite <- enumerate_combine, map_map. cbn [tags.name].
  apply map_snd_enumerate_from.
Qed.

Lemma names_of_forced (c : TagsController.t) :
  map tags.name
    (ForceTagsController.__iter__ (owner_force_tags (TagsController._parent c)))
  = forced_names c.
Proof.
  unfold forced_names, ForceTagsController.__iter__,
    ForceTagsController._recursive_gather_from.
  destruct (ForceTagsController.parent
              (owner_force_tags (TagsController._parent c))) as [obj|];
    [|reflexivity].
  rewrite gather_from_entity_levels, app_nil_r. cbn [ancestors].
  rewrite concat_map, map_map. f_equal. apply map_ext. exact names_of_level.
Qed.

(** X9.  The displayed value of a tags controller is made of the names of
    the tags it yields, the indexes and controllers left aside: the force
    tags of all levels above the owner, the topmost level's first, and then
    the stored names, or the default tags when nothing is stored.  Pipes
    are escaped in every name.  With an empty stored list the empty name of
    the placeholder tag is joined in as well, so that the displayed value
    ends with the separator when there are force tags. *)
Theorem tags_display_value_names (c : TagsController.t) :
  TagsController_more.display_value c
  = join (py " | ")
      (map escape_pipes
         (forced_names c
          ++ match Sequence.value (TagsController._tags c) with
             | None => default_names c
             | Some [] => [[]]
             | Some value => value
             end))
  /\ (Sequence.value (TagsController._tags c) = Some [] ->
      forced_names c <> [] ->
      TagsController_more.display_value c
      = join (py " | ") (map escape_pipes (forced_names c)) ++ py " | ").
Proof.
  assert (Hnames :
    map tags.name (TagsController.__iter__ c)
    = forced_names c
      ++ match Sequence.value (TagsController._tags c) with
         | None => default_names c
         | Some [] => [[]]
         | Some value => value
         end).
  { unfold TagsController.__iter__, default_names,
      DefaultTagsController.__iter__.
    destruct (Sequence.value (TagsController._tags c)) as [[|t value]|].
    - cbn [length Nat.eqb]. rewrite map_app, names_of_forced. reflexivity.
    - cbn [length Nat.eqb]. rewrite map_app, names_of_forced, map_map.
      f_equal. apply (map_snd_enumerate_from (t :: value) 0).
    - rewrite map_app, names_of_forced.
      destruct (Sequence.value
                  (DefaultTagsController._tags
                     (owner_default_tags (TagsController._parent c)))) as [l|];
        [|reflexivity].
      rewrite map_map. f_equal. apply (map_snd_enumerate_from l 0). }
  assert (Hdisplay :
    TagsController_more.display_value c
    = join (py " | ")
        (map escape_pipes (map tags.name (TagsController.__iter__ c)))).
  { unfold TagsController_more.display_value. rewrite map_map. reflexivity. }
  split.
  - rewrite Hdisplay, Hnames. reflexivity.
  - intros Hempty Hforced. rewrite Hdisplay, Hnames, Hempty.
    rewrite map_app. cbn [map].
    rewrite join_app_last; [reflexivity |].
    intros H. apply map_eq_nil in H. exact (Hforced H).
Qed.

(** ** Reading back the documentation *)

Lemma unescape_escaped_newline (s : str) :
  unescape_newlines (backslash :: "n"%char :: s) = LF :: unescape_newlines s.
Proof.
  change (backslash :: "n"%char :: s)
    with (repeat backslash 1 ++ "n"%char :: s).
  rewrite unescape_run by (lia || exact n_no_backslash). reflexivity.
Qed.

Lemma unescape_copied (k : nat) (s : str) :
  no_leading_backslash s -> newline_escape s = None ->
  unescape_newlines (repeat backslash k ++ s)
  = repeat backslash k ++ unescape_newlines s.
Proof.
  intros Hs Hnone. destruct k as [|k]; [reflexivity |].
  rewrite unescape_run by (lia || exact Hs). rewrite Hnone. reflexivity.
Qed.

Lemma unescape_escape_bounded (n : nat) :
  forall s, length s <= n -> ~ In backslash s ->
  unescape_newlines (escape_newlines s) = normalize_newlines s.
Proof.
  induction n as [|n IH]; intros s Hlen Hno.
  - destruct s; [reflexivity | simpl in Hlen; lia].
  - destruct s as [|c s]; [reflexivity |]. cbn [length] in Hlen.
    assert (Hc : c <> backslash) by (intros ->; apply Hno; left; reflexivity).
    assert (Hs : ~ In backslash s) by (intros H; apply Hno; right; exact H).
    cbn [escape_newlines normalize_newlines].
    destruct (Ascii.eqb c CR) eqn:Hcr.
    + destruct s as [|d s]; [reflexivity |]. cbn [length] in Hlen.
      destruct (Ascii.eqb d LF).
      * rewrite unescape_escaped_newline, IH; [reflexivity | lia |].
        intros H. apply Hs. right. exact H.
      * rewrite unescape_escaped_newline, IH;
          [reflexivity | cbn [length]; lia | exact Hs].
    + destruct (Ascii.eqb c LF) eqn:Hlf.
      * apply Ascii.eqb_eq in Hlf. subst c.
        rewrite unescape_escaped_newline, IH by (lia || exact Hs).
        reflexivity.
      * rewrite unescape_plain, IH by (lia || assumption). reflexivity.
Qed.

(** A text whose stripped form begins with a hash begins with whitespace or
    with the hash. *)
Lemma strip_starts_with_hash (s : str) :
  startswith (strip s) [hash_sign] = true ->
  exists c rest, s = c :: rest /\ (isspace c = true \/ c = hash_sign).
Proof.
  destruct s as [|c rest]; [discriminate |]. intros H.
  exists c, rest. split; [reflexivity |].
  destruct (isspace c) eqn:Hc; [left; reflexivity | right].
  destruct (strip_keeps_first c rest Hc) as [kept E]. rewrite E in H.
  cbn [startswith] in H. apply andb_true_iff in H. destruct H as [H _].
  apply Ascii.eqb_eq in H. symmetry. exact H.
Qed.

Lemma isspace_plain (c : ascii) :
  isspace c = true \/ c = hash_sign ->
  c <> backslash /\ c <> "r"%char /\ c <> "n"%char.
Proof.
  intros [H | ->]; [|repeat split; discriminate].
  repeat split; intros ->; discriminate.
Qed.

(** X10.  A text without backslashes that is assigned as the editable
    value and read back comes back with every carriage return and line
    feed pair, and every other carriage return, as one line feed.  It comes
    back with one backslash in front exactly when the first character of
    its escaped form that is not whitespace is a hash: the backslash that
    the assignment puts there is not taken away on reading. *)
Theorem editable_value_read_back {U : Utils} (text : str)
    (s : controller Scalar.t) :
  ~ In backslash text ->
  _get_editable_value (exec (_set_editable_value text) s)
  = Some ((if hash_after_whitespace (escape_newlines text)
           then [backslash] else [])
          ++ normalize_newlines text).
Proof.
  intros Hno. rewrite <- startswith_strip_hash.
  unfold _get_editable_value, _set_editable_value.
  rewrite (set_value_stores Documentation_). cbn [parsed option_map].
  f_equal. rewrite _unescape_refines.
  unfold DocumentationController._escape_newlines_and_leading_hash.
  rewrite escape_passes_refine.
  destruct (startswith (strip (escape_newlines text)) [hash_sign]) eqn:Hhash.
  - destruct (strip_starts_with_hash _ Hhash) as (c & rest & E & Hc).
    destruct (isspace_plain Hc) as (Hb & Hr & Hn).
    rewrite E.
    change (backslash :: c :: rest) with (repeat backslash 1 ++ c :: rest).
    rewrite unescape_copied by (exact Hb || apply newline_escape_other; assumption).
    rewrite <- E. cbn [repeat app]. f_equal.
    apply (unescape_escape_bounded (n := length text)); [lia | exact Hno].
  - cbn [app].
    apply (unescape_escape_bounded (n := length text)); [lia | exact Hno].
Qed.

Lemma editable_value_read_back_witness :
  ~ In backslash ["#"%char; "a"%char; CR; LF; "b"%char]
  /\ _get_editable_value
       (exec (_set_editable_value (U := utils_model.utils)
                ["#"%char; "a"%char; CR; LF; "b"%char])
          {| _data := {| Scalar.value := None; Scalar.comment := None |};
             _parent := {| Parent.calls := [] |} |})
     = Some [backslash; "#"%char; "a"%char; LF; "b"%char].
Proof.
  assert (Hno : ~ In backslash ["#"%char; "a"%char; CR; LF; "b"%char]).
  { cbn. intros H. repeat (destruct H as [H | H]; [discriminate |]). exact H. }
  split; [exact Hno |].
  apply (editable_value_read_back (U := utils_model.utils)
           ["#"%char; "a"%char; CR; LF; "b"%char]).
  exact Hno.
Defined.

(** ** Escaping twice *)

Lemma escape_newlines_without_newlines (s : str) :
  (forall c, In c s -> c <> LF /\ c <> CR) -> escape_newlines s = s.
Proof.
  induction s as [|c s IH]; intros Hno; [reflexivity |].
  destruct (Hno c (or_introl eq_refl)) as [Hlf Hcr].
  cbn [escape_newlines].
  rewrite (proj2 (Ascii.eqb_neq c CR) Hcr), (proj2 (Ascii.eqb_neq c LF) Hlf).
  rewrite IH; [reflexivity |]. intros d Hd. apply Hno. right. exact Hd.
Qed.

(** X11.  Escaping is idempotent: escaping an escaped documentation text
    again changes nothing, so no second backslash is put in front of a
    hash and no backslash-[n] is escaped once more. *)
Theorem escape_newlines_and_leading_hash_idempotent (item : str) :
  DocumentationController._escape_newlines_and_leading_hash
    (DocumentationController._escape_newlines_and_leading_hash item)
  = DocumentationController._escape_newlines_and_leading_hash item.
Proof.
  unfold DocumentationController._escape_newlines_and_leading_hash.
  rewrite !escape_passes_refine.
  assert (Hclean : forall c, In c (escape_newlines item) -> c <> LF /\ c <> CR)
    by (apply (escape_newlines_no_newline_bounded (n := length item)); lia).
  destruct (startswith (strip (escape_newlines item)) [hash_sign]) eqn:Hhash.
  - rewrite escape_newlines_without_newlines.
    + destruct (strip_keeps_first backslash (escape_newlines item) eq_refl)
        as [kept ->].
      reflexivity.
    + intros c [<- | Hin]; [split; discriminate | apply Hclean, Hin].
  - rewrite escape_newlines_without_newlines by exact Hclean.
    rewrite Hhash. reflexivity.
Qed.

(** ** Unescaping twice *)

Lemma newline_escape_r_some (s : str) :
  exists len, newline_escape ("r"%char :: s) = Some len /\ 0 < len.
Proof.
  rewrite newline_escape_r.
  destruct (startswith ("r"%char :: s) (py "r\n"));
    eexists; split; try reflexivity; lia.
Qed.

Lemma unescape_twice_bounded (n : nat) :
  forall s, length s <= n ->
  unescape_newlines (unescape_newlines s) = unescape_newlines s.
Proof.
  induction n as [|n IH]; intros s Hlen.
  - destruct s; [reflexivity | simpl in Hlen; lia].
  - destruct (run_decompose s) as (k & rest & -> & Hrest).
    rewrite length_app, repeat_length in Hlen.
    destruct k as [|k].
    + cbn [repeat app]. destruct rest as [|c t]; [reflexivity |].
      cbn in Hrest, Hlen.
      rewrite !unescape_plain by exact Hrest.
      rewrite IH by lia. reflexivity.
    + destruct rest as [|c t].
      * rewrite !unescape_copied by (exact I || reflexivity). reflexivity.
      * cbn in Hrest. cbn [length] in Hlen.
        rewrite unescape_run by (lia || exact Hrest).
        assert (Hagain :
          Nat.odd (S k) = false \/ newline_escape (c :: t) = None ->
          (newline_escape (c :: t) = None ->
           newline_escape (c :: unescape_newlines t) = None) ->
          (forall len, newline_escape (c :: t) = Some len ->
           exists len', newline_escape (c :: unescape_newlines t) = Some len') ->
          unescape_newlines
            (repeat backslash (S k) ++ unescape_newlines (c :: t))
          = repeat backslash (S k) ++ unescape_newlines (c :: t)).
        { intros Hcase Hnone Hsome.
          rewrite (unescape_plain t Hrest).
          rewrite unescape_run by (lia || exact Hrest).
          rewrite (unescape_plain (unescape_newlines t) Hrest).
          rewrite IH by lia.
          destruct (newline_escape (c :: t)) as [len|] eqn:E.
          - destruct (Hsome len eq_refl) as [len' ->].
            destruct Hcase as [-> | Hcase]; [reflexivity | discriminate].
          - rewrite (Hnone eq_refl). reflexivity. }
        destruct (ascii_dec c "r"%char) as [-> | Hr];
          [| destruct (ascii_dec c "n"%char) as [-> | Hn]].
        -- destruct (newline_escape_r_some t) as (len & E & Hpos).
           rewrite E. destruct (Nat.odd (S k)) eqn:Hodd.
           ++ replace (S k - 1) with k by lia.
              rewrite unescape_copied by (exact LF_no_backslash || reflexivity).
              rewrite unescape_plain by exact LF_no_backslash.
              rewrite IH; [reflexivity |].
              rewrite length_skipn. cbn [length]. lia.
           ++ apply Hagain; [left; reflexivity | rewrite E; discriminate |].
              intros _ _.
              destruct (newline_escape_r_some (unescape_newlines t))
                as (len' & E' & _).
              exists len'. exact E'.
        -- rewrite newline_escape_n. destruct (Nat.odd (S k)) eqn:Hodd.
           ++ replace (S k - 1) with k by lia.
              rewrite unescape_copied by (exact LF_no_backslash || reflexivity).
              rewrite unescape_plain by exact LF_no_backslash.
              rewrite IH; [reflexivity |].
              rewrite length_skipn. cbn [length]. lia.
           ++ apply Hagain; [left; reflexivity | discriminate |].
              intros _ _. exists 1. reflexivity.
        -- rewrite newline_escape_other by assumption.
           apply Hagain;
             [right; apply newline_escape_other; assumption
             | intros _; apply newline_escape_other; assumption |].
           intros len E. rewrite newline_escape_other in E by assumption.
           discriminate.
Qed.

(** X12.  Unescaping is idempotent: unescaping the editable value once
    more changes nothing. *)
Theorem unescape_newlines_idempotent (item : str) :
  DocumentationController._unescape_newlines_and_handle_escaped_backslashes
    (DocumentationController._unescape_newlines_and_handle_escaped_backslashes
       item)
  = DocumentationController._unescape_newlines_and_handle_escaped_backslashes
      item.
Proof.
  rewrite !_unescape_refines.
  apply (unescape_twice_bounded (n := length item)). lia.
Qed.

(** ** Metadata and variables *)

Lemma calls_after_repeated {D} (f : controller D -> controller D)
    (c : Parent.call) :
  (forall s, Parent.calls (_parent (f s)) = Parent.calls (_parent s) ++ [c]) ->
  forall n s,
    Parent.calls (_parent (Nat.iter n f s))
    = Parent.calls (_parent s) ++ repeat c n.
Proof.
  intros Hf n s. induction n as [|n IH].
  - cbn. rewrite app_nil_r. reflexivity.
  - cbn [Nat.iter nat_rect]. unfold Nat.iter in IH. rewrite Hf, IH.
    rewrite <- app_assoc, <- repeat_cons. reflexivity.
Qed.

(** X13.  [set_value] of a metadata controller and of a variable controller
    has no change test: [n] calls in a row, whatever they write and
    whatever was stored, mark the owner dirty [n] times and make no other
    call.  A variable controller stores a string as the list of that one
    string. *)
Theorem metadata_and_variable_set_value_always_write (n : nat)
    (name value : str) (argument : VariableController_more.argument)
    (m : controller Metadata.t) (v : controller Variable_.t) :
  calls_since m
    (Nat.iter n (exec (MetadataController.set_value name value)) m)
  = repeat Parent.mark_dirty n
  /\ calls_since v
       (Nat.iter n (exec (VariableController_more.set_value name argument)) v)
     = repeat Parent.mark_dirty n
  /\ _data (exec (MetadataController.set_value name value) m)
     = {| Metadata.name := Some name; Metadata.value := Some value |}
  /\ _data (exec (VariableController_more.set_value name
                    (VariableController_more.Text value)) v)
     = {| Variable_.name := name; Variable_.value := [value] |}
  /\ exec (VariableController_more.set_value name
             (VariableController_more.Text value)) v
     = exec (VariableController_more.set_value name
               (VariableController_more.Items [value])) v.
Proof.
  split; [|split; [|repeat split]].
  - apply calls_since_app, calls_after_repeated. reflexivity.
  - apply calls_since_app, calls_after_repeated. reflexivity.
Qed.

(** ** Import controllers *)

Section Imports.

Context {U : Utils}.
Variable factory : Type.
Variable resource : Type.

(** The controller after [set_value]. *)
Lemma import_set_value_state (name : str) (args : option str) (alias : str)
    (s : _ImportController.t factory resource) :
  exec (_ImportController.set_value name args alias) s
  = {| _ImportController._import :=
         {| Import_.type := Import_.type (_ImportController._import s);
            Import_.name := name;
            Import_.args := match args with
                            | Some (c :: a) => split_value (c :: a)
                            | _ => split_value_nil
                            end;
            Import_.alias := alias |};
       _ImportController.is_resource := _ImportController.is_resource s;
       _ImportController._resolved_import :=
         _ImportController._resolved_import s;
       _ImportController._imported_resource_controller :=
         _ImportController._imported_resource_controller s;
       _ImportController._parent :=
         {| Parent.calls :=
              Parent.calls (_ImportController._parent s)
              ++ [Parent.mark_dirty; Parent.notify_imports_modified]
              ++ (if _ImportController.is_resource s
                  then [Parent.resource_import_modified name] else []) |};
       _ImportController.published :=
         _ImportController.published s
         ++ [_ImportController.RideImportSettingChanged name
               (lower (Import_.type (_ImportController._import s)))];
       _ImportController.resource_file_controller_factory :=
         _ImportController.resource_file_controller_factory s;
       _ImportController.lookups := _ImportController.lookups s |}.
Proof.
  unfold _ImportController.set_value, _ImportController.publish_edited,
    _ImportController.import_loaded_or_modified, exec, bind, gets, modify,
    _ImportController.with_import, _ImportController.tell_parent,
    _ImportController.publish, Parent.called, _ImportController.name, ret.
  cbn. destruct (_ImportController.is_resource s); cbn;
    rewrite <- ?app_assoc; reflexivity.
Qed.

(** X14.  [ImportController] builds a resource import controller exactly
    for the type [Resource], spelled this way.  [set_value] on the
    controller it builds writes name, arguments and alias, keeps the type,
    marks the owner dirty, publishes one message with the new name and the
    type in lower case, tells the owner that the imports were modified
    and, for a resource import only, that the resource of the new name was
    modified; it does not touch what was resolved. *)
Theorem import_controller_set_value_effects (parent_factory : factory)
    (import_ : Import_.t) (name : str) (args : option str) (alias : str) :
  _ImportController.is_resource
    (ImportController (resource := resource) parent_factory import_)
  = str_eqb (Import_.type import_) (py "Resource")
  /\ exec (_ImportController.set_value name args alias)
       (ImportController (resource := resource) parent_factory import_)
     = {| _ImportController._import :=
            {| Import_.type := Import_.type import_;
               Import_.name := name;
               Import_.args := match args with
                               | Some (c :: a) => split_value (c :: a)
                               | _ => split_value_nil
                               end;
               Import_.alias := alias |};
          _ImportController.is_resource :=
            str_eqb (Import_.type import_) (py "Resource");
          _ImportController._resolved_import := false;
          _ImportController._imported_resource_controller := None;
          _ImportController._parent :=
            {| Parent.calls :=
                 [Parent.mark_dirty; Parent.notify_imports_modified]
                 ++ (if str_eqb (Import_.type import_) (py "Resource")
                     then [Parent.resource_import_modified name] else []) |};
          _ImportController.published :=
            [_ImportController.RideImportSettingChanged name
               (lower (Import_.type import_))];
          _ImportController.resource_file_controller_factory := parent_factory;
          _ImportController.lookups := [] |}.
Proof.
  unfold ImportController.
  destruct (str_eqb (Import_.type import_) (py "Resource"));
    (split; [reflexivity |]); rewrite import_set_value_state; reflexivity.
Qed.

(** X15.  [set_value] and [change_name] leave the resolution as it is: on
    a controller that has resolved its import, [get_imported_controller]
    after a change of the name still returns the controller kept for the
    old name, and the factory is not asked. *)
Theorem resolution_survives_set_value
    (find_with_import : factory -> Import_.t -> option resource * factory)
    (name : str) (args : option str) (alias old_name new_name : str)
    (s : _ImportController.t factory resource) :
  _ImportController._resolved_import s = true ->
  ResourceImportController.get_imported_controller find_with_import
    (exec (_ImportController.set_value name args alias) s)
  = (_ImportController._imported_resource_controller s,
     exec (_ImportController.set_value name args alias) s)
  /\ eval (ResourceImportController.get_imported_controller find_with_import)
       (exec (ResourceImportController.change_name old_name new_name) s)
     = _ImportController._imported_resource_controller s
  /\ _ImportController.lookups
       (exec (ResourceImportController.get_imported_controller find_with_import)
          (exec (ResourceImportController.change_name old_name new_name) s))
     = _ImportController.lookups s.
Proof.
  intros Hresolved.
  assert (Hset : forall n,
    ResourceImportController.get_imported_controller find_with_import
      (exec (_ImportController.set_value n None []) s)
    = (_ImportController._imported_resource_controller s,
       exec (_ImportController.set_value n None []) s)).
  { intros n. rewrite get_imported_controller_cached;
      rewrite import_set_value_state; [reflexivity | exact Hresolved]. }
  split.
  - rewrite get_imported_controller_cached;
      rewrite import_set_value_state; [reflexivity | exact Hresolved].
  - assert (Hcases :
      exec (ResourceImportController.change_name old_name new_name) s = s
      \/ exists n,
           exec (ResourceImportController.change_name old_name new_name) s
           = exec (_ImportController.set_value n None []) s).
    { unfold ResourceImportController.change_name, exec, bind, gets, when.
      cbn. destruct (ResourceImportController.contains_filename s old_name);
        [right; eexists; reflexivity | left; reflexivity]. }
    destruct Hcases as [-> | [n ->]].
    + unfold eval, exec.
      rewrite get_imported_controller_cached by exact Hresolved.
      split; reflexivity.
    + pose proof (Hset n) as Hn.
      pose proof (import_set_value_state n None [] s) as Hstate.
      unfold eval, exec in *. rewrite Hn. cbn [fst snd].
      split; [reflexivity |]. rewrite Hstate. reflexivity.
Qed.

(** X16.  For a non-empty [old_name]: when the name ends with [old_name],
    [change_name] replaces that end by [new_name] and writes the result
    through [set_value]; when it does not, nothing changes. *)
Theorem change_name_replaces_the_ending (old_name new_name : str)
    (s : _ImportController.t factory resource) :
  old_name <> [] ->
  (endswith (_ImportController.name s) old_name = true ->
   exists before,
     _ImportController.name s = before ++ old_name
     /\ exec (ResourceImportController.change_name old_name new_name) s
        = exec (_ImportController.set_value (before ++ new_name) None []) s
     /\ _ImportController.name
          (exec (ResourceImportController.change_name old_name new_name) s)
        = before ++ new_name)
  /\ (endswith (_ImportController.name s) old_name = false ->
      exec (ResourceImportController.change_name old_name new_name) s = s).
Proof.
  intros Hne. split.
  - intros Hends. apply endswith_iff in Hends. destruct Hends as [before E].
    exists before. split; [exact E |].
    rewrite (change_name_rewrites before new_name s E Hne).
    split; [reflexivity |]. rewrite import_set_value_state. reflexivity.
  - apply change_name_noop.
Qed.

End Imports.

Lemma resolution_survives_set_value_witness :
  _ImportController._resolved_import
    (ResourceImportController.resolved
       (fun (f : unit) (_ : Import_.t) => (Some 7, f))
       (ResourceImportController.new tt
          {| Import_.type := py "Resource"; Import_.name := py "old.txt";
             Import_.args := []; Import_.alias := [] |}))
  = true
  /\ eval (ResourceImportController.get_imported_controller
             (fun (f : unit) (_ : Import_.t) => (Some 7, f)))
       (exec (ResourceImportController.change_name (U := utils_model.utils)
                (py "old.txt") (py "new.txt"))
          (ResourceImportController.resolved
             (fun (f : unit) (_ : Import_.t) => (Some 7, f))
             (ResourceImportController.new tt
                {| Import_.type := py "Resource"; Import_.name := py "old.txt";
                   Import_.args := []; Import_.alias := [] |})))
     = Some (Some 7).
Proof.
  split; [reflexivity |].
  apply (resolution_survives_set_value (U := utils_model.utils)
           (fun (f : unit) (_ : Import_.t) => (Some 7, f))
           [] None [] (py "old.txt") (py "new.txt")).
  reflexivity.
Defined.

Lemma change_name_replaces_the_ending_witness :
  py "resource.txt" <> []
  /\ endswith (py "lib/old.txt") (py "resource.txt") = false
  /\ exec (ResourceImportController.change_name (U := utils_model.utils)
             (py "resource.txt") (py "new.txt"))
       (ResourceImportController.new (resource := unit) tt
          {| Import_.type := py "Resource"; Import_.name := py "lib/old.txt";
             Import_.args := []; Import_.alias := [] |})
     = ResourceImportController.new tt
         {| Import_.type := py "Resource"; Import_.name := py "lib/old.txt";
            Import_.args := []; Import_.alias := [] |}.
Proof.
  split; [discriminate |]. split; [reflexivity |].
  apply (change_name_replaces_the_ending (U := utils_model.utils)
           (py "new.txt")
           (ResourceImportController.new (resource := unit) tt
              {| Import_.type := py "Resource"; Import_.name := py "lib/old.txt";
                 Import_.args := []; Import_.alias := [] |}));
    [discriminate | reflexivity].
Defined.

(** ** Formats of resource files *)

Lemma rsplit_once_without (sep : ascii) (s : str) :
  ~ In sep s -> rsplit_once sep s = [s].
Proof.
  intros Hno. unfold rsplit_once. rewrite split_once_without; [reflexivity |].
  intros Hin. apply Hno, in_rev, Hin.
Qed.

Lemma rsplit_once_at (sep : ascii) (before after : str) :
  ~ In sep after ->
  rsplit_once sep (before ++ sep :: after) = [before; after].
Proof.
  intros Hno. unfold rsplit_once.
  rewrite rev_app_distr. cbn [rev]. rewrite <- app_assoc. cbn [app].
  rewrite split_once_at.
  - rewrite !rev_involutive. reflexivity.
  - intros Hin. apply Hno, in_rev, Hin.
Qed.

Lemma str_cases (sep : ascii) (s : str) :
  ~ In sep s
  \/ exists before after, s = before ++ sep :: after /\ ~ In sep after.
Proof.
  induction s as [|c s IH]; [left; intros [] |].
  destruct IH as [Hno | (before & after & -> & Hno)].
  - destruct (ascii_dec c sep) as [-> | Hne].
    + right. exists [], s. split; [reflexivity | exact Hno].
    + left. intros [H | H]; [congruence | exact (Hno H)].
  - right. exists (c :: before), after. split; [reflexivity | exact Hno].
Qed.

Lemma in_list_iff (x : str) (l : list str) : in_list x l = true <-> In x l.
Proof.
  unfold in_list. rewrite existsb_exists. split.
  - intros (y & Hin & E). apply str_eqb_eq in E. subst y. exact Hin.
  - intros Hin. exists x. split; [exact Hin | apply str_eqb_eq; reflexivity].
Qed.

Section Format.

Context {U : Utils}.
Variable factory : Type.
Variable resource : Type.
Variable replace_extension : str -> str -> str.

Lemma _has_format_extension (base ext : str)
    (s : _ImportController.t factory resource) :
  _ImportController.name s = base ++ "."%char :: ext ->
  ~ In "."%char ext ->
  ResourceImportController_more._has_format s
  = in_list (lower ext) [py "html"; py "txt"; py "tsv"].
Proof.
  intros E Hno. unfold ResourceImportController_more._has_format.
  rewrite E, rsplit_once_at by exact Hno. reflexivity.
Qed.

Lemma _has_format_no_dot (s : _ImportController.t factory resource) :
  ~ In "."%char (_ImportController.name s) ->
  ResourceImportController_more._has_format s = false.
Proof.
  intros Hno. unfold ResourceImportController_more._has_format.
  rewrite rsplit_once_without by exact Hno. reflexivity.
Qed.

(** X17.  A resource import has a format exactly when its name ends with
    a dot and an extension without further dots that is [html], [txt] or
    [tsv] in any mix of upper and lower case.  [change_format] changes
    nothing for any other name, a name without a dot among them, and
    otherwise writes the name with the extension replaced through
    [set_value]. *)
Theorem resource_formats (format : str)
    (s : _ImportController.t factory resource) :
  (ResourceImportController_more._has_format s = true
   <-> exists base ext,
         _ImportController.name s = base ++ "."%char :: ext
         /\ ~ In "."%char ext
         /\ In (lower ext) [py "html"; py "txt"; py "tsv"])
  /\ (~ In "."%char (_ImportController.name s) ->
      exec (ResourceImportController_more.change_format replace_extension format) s
      = s)
  /\ (ResourceImportController_more._has_format s = false ->
      exec (ResourceImportController_more.change_format replace_extension format) s
      = s)
  /\ (ResourceImportController_more._has_format s = true ->
      exec (ResourceImportController_more.change_format replace_extension format) s
      = exec (_ImportController.set_value
                (replace_extension (_ImportController.name s) format) None [])
          s).
Proof.
  assert (Hnot : ResourceImportController_more._has_format s = false ->
    exec (ResourceImportController_more.change_format replace_extension format) s
    = s).
  { intros Hf. unfold ResourceImportController_more.change_format, exec, bind,
      gets, when. cbn. rewrite Hf. reflexivity. }
  split; [|split; [|split]].
  - split.
    + intros Hf.
      destruct (str_cases "."%char (_ImportController.name s))
        as [Hno | (base & ext & E & Hno)].
      * rewrite _has_format_no_dot in Hf by exact Hno. discriminate.
      * exists base, ext. split; [exact E | split; [exact Hno |]].
        rewrite (_has_format_extension base ext s E Hno) in Hf.
        apply in_list_iff, Hf.
    + intros (base & ext & E & Hno & Hin).
      rewrite (_has_format_extension base ext s E Hno).
      apply in_list_iff, Hin.
  - intros Hno. apply Hnot, _has_format_no_dot, Hno.
  - exact Hnot.
  - intros Hf. unfold ResourceImportController_more.change_format, exec, bind,
      gets, when. cbn. rewrite Hf. reflexivity.
Qed.

End Format.

Lemma resource_formats_witness :
  ~ In "."%char (py "resource")
  /\ exec (ResourceImportController_more.change_format
             (U := utils_model.utils) (fun name format => name ++ format)
             (py "txt"))
       (ResourceImportController.new (resource := unit) tt
          {| Import_.type := py "Resource"; Import_.name := py "resource";
             Import_.args := []; Import_.alias := [] |})
     = ResourceImportController.new tt
         {| Import_.type := py "Resource"; Import_.name := py "resource";
            Import_.args := []; Import_.alias := [] |}.
Proof.
  assert (Hno : ~ In "."%char (py "resource")).
  { cbn. intros H. repeat (destruct H as [H | H]; [discriminate |]). exact H. }
  split; [exact Hno |].
  exact (proj1 (proj2 (resource_formats (U := utils_model.utils)
           (fun name format => name ++ format) (py "txt")
           (ResourceImportController.new (resource := unit) tt
              {| Import_.type := py "Resource"; Import_.name := py "resource";
                 Import_.args := []; Import_.alias := [] |}))) Hno).
Defined.

(** ** The label widget *)

Lemma escaped_cons (c : ascii) (label : str) :
  Label.escaped (c :: label)
  = if Ascii.eqb "&"%char c then "&"%char :: "&"%char :: Label.escaped label
    else c :: Label.escaped label.
Proof.
  unfold Label.escaped. rewrite !replace_single. cbn [flat_map].
  unfold replace_char at 1. destruct (Ascii.eqb "&"%char c); reflexivity.
Qed.

Lemma escaped_injective (v : str) :
  forall w, Label.escaped v = Label.escaped w -> v = w.
Proof.
  induction v as [|c v IH]; intros [|d w] E.
  - reflexivity.
  - rewrite escaped_cons in E.
    destruct (Ascii.eqb "&"%char d); discriminate.
  - rewrite escaped_cons in E.
    destruct (Ascii.eqb "&"%char c); discriminate.
  - rewrite !escaped_cons in E.
    destruct (Ascii.eqb "&"%char c) eqn:Hc;
      destruct (Ascii.eqb "&"%char d) eqn:Hd.
    + apply Ascii.eqb_eq in Hc, Hd. subst c d. injection E as E.
      rewrite (IH w E). reflexivity.
    + injection E as E _. subst d. rewrite Ascii.eqb_refl in Hd. discriminate.
    + injection E as E _. subst c. rewrite Ascii.eqb_refl in Hc. discriminate.
    + injection E as -> E. rewrite (IH w E). reflexivity.
Qed.

Lemma escaped_counts (label : str) :
  length (filter (Ascii.eqb "&"%char) (Label.escaped label))
  = 2 * length (filter (Ascii.eqb "&"%char) label)
  /\ filter (fun c => negb (Ascii.eqb "&"%char c)) (Label.escaped label)
     = filter (fun c => negb (Ascii.eqb "&"%char c)) label.
Proof.
  induction label as [|c label [IH1 IH2]]; [split; reflexivity |].
  rewrite escaped_cons. destruct (Ascii.eqb "&"%char c) eqn:Hc.
  - apply Ascii.eqb_eq in Hc. subst c. cbn [filter]. rewrite !Ascii.eqb_refl.
    cbn [negb length]. rewrite IH1, IH2. split; [lia | reflexivity].
  - cbn [filter]. rewrite Hc. cbn [negb]. rewrite IH1, IH2.
    split; reflexivity.
Qed.

Lemma escaped_characters (label : str) :
  Label.escaped label
  = flat_map (fun c => if Ascii.eqb c "&"%char then ["&"%char; "&"%char]
                       else [c])
      label.
Proof.
  unfold Label.escaped. rewrite replace_single. apply flat_map_ext.
  intros c. unfold replace_char. rewrite (Ascii.eqb_sym "&"%char c).
  reflexivity.
Qed.

(** X18.  A label widget hands its text to the toolkit with every
    ampersand doubled where it stands and every other character as it is,
    at construction and in [SetLabel] alike, whatever label it showed
    before.  The doubling loses nothing: different labels give different
    texts, the other characters are kept in their order, and the text
    holds twice the ampersands of the label. *)
Theorem label_doubles_ampersands (label label' : str) (widget : Label.t) :
  Label.wx_label (Label.new label)
  = flat_map (fun c => if Ascii.eqb c "&"%char then ["&"%char; "&"%char]
                       else [c])
      label
  /\ Label.SetLabel label widget = Label.new label
  /\ (Label.wx_label (Label.new label) = Label.wx_label (Label.new label') ->
      label = label')
  /\ length (filter (Ascii.eqb "&"%char) (Label.wx_label (Label.new label)))
     = 2 * length (filter (Ascii.eqb "&"%char) label)
  /\ filter (fun c => negb (Ascii.eqb "&"%char c))
       (Label.wx_label (Label.new label))
     = filter (fun c => negb (Ascii.eqb "&"%char c)) label.
Proof.
  split; [apply escaped_characters |].
  split; [reflexivity |]. split; [apply escaped_injective |].
  apply escaped_counts.
Qed.

Lemma label_doubles_ampersands_witness :
  Label.wx_label (Label.new (py "a&b")) = py "a&&b".
Proof.
  exact (proj1 (label_doubles_ampersands (py "a&b") [] (Label.new []))).
Defined.
